(** * SimpleVector: a growable array over an owned buffer

    Shallow embedding of [simple-vector/simple_vector.h].

    - [size_t] values are integers in [0, 2^64); every arithmetic result
      stored in a [size_t] is reduced with [size_t].
    - The block owned by [ArrayPtr<Type>] is a [list T]; its length is the
      number of allocated slots and the null pointer is the empty list.
    - Iterators ([Type*]) are offsets from [items_.Get()].
    - Operations run in [Outcome]: they return, throw [std::out_of_range],
      stop on a failed [assert], or have undefined behaviour (an access
      outside the owned block, an invalid iterator range). *)

From Stdlib Require Import ZArith Lia Bool.
From stdpp Require Import base tactics option list numbers.

Local Open Scope Z_scope.

(** ** Element type

    What the template parameter [Type] has to provide: [Type()], the state
    a value is left in once it has been moved from, [operator==] and
    [operator<]. *)
Class Element (T : Type) := {
  default_value : T;
  moved_from : T → T;
  op_eq : T → T → bool;
  op_lt : T → T → bool
}.

(** ** Outcomes of an operation *)
Inductive Outcome (A : Type) : Type :=
| Returns (a : A)
| ThrowsOutOfRange
| AssertionFailed
| Undefined.

Arguments Returns {A} a.
Arguments ThrowsOutOfRange {A}.
Arguments AssertionFailed {A}.
Arguments Undefined {A}.

#[global] Instance Outcome_ret : MRet Outcome := λ A a, Returns a.

#[global] Instance Outcome_bind : MBind Outcome := λ A B f m,
  match m with
  | Returns a => f a
  | ThrowsOutOfRange => ThrowsOutOfRange
  | AssertionFailed => AssertionFailed
  | Undefined => Undefined
  end.

(** [assert(c)] *)
Definition assert (c : bool) : Outcome unit :=
  if c then Returns tt else AssertionFailed.

(** ** size_t *)
Definition SIZE_MAX : Z := 2 ^ 64 - 1.

Definition size_t (n : Z) : Z := n mod 2 ^ 64.

(** ** Buffers and the standard algorithms used on them *)
Section Memory.
Context {T : Type} `{!Element T}.

(** Modelled from the spec: [array_ptr.h] is not among the sources.
    [ArrayPtr<Type>(length)] owns a block of [length] default-initialised
    slots (no block for length 0). *)
Definition ArrayPtr_new (length : Z) : list T :=
  replicate (Z.to_nat length) default_value.

(** [*(p + i)] read, with [p] the start of block [b] *)
Definition load (b : list T) (i : Z) : Outcome T :=
  if 0 <=? i then
    match b !! Z.to_nat i with
    | Some x => Returns x
    | None => Undefined
    end
  else Undefined.

(** [*(p + i) = x] *)
Definition store (b : list T) (i : Z) (x : T) : Outcome (list T) :=
  if (0 <=? i) && (i <? Z.of_nat (length b)) then
    Returns (<[Z.to_nat i := x]> b)
  else Undefined.

(** [std::swap(p[i], x)]: the slot receives [x], the caller's object the
    slot's previous value. *)
Definition swap_slot (b : list T) (i : Z) (x : T) : Outcome (list T * T) :=
  y ← load b i;
  b' ← store b i x;
  Returns (b', y).

(** [p[dst] = p[src]] and [p[dst] = std::move(p[src])] inside one block *)
Definition assign_within (move : bool) (b : list T) (src dst : Z)
  : Outcome (list T) :=
  x ← load b src;
  b' ← store b dst x;
  if move then store b' src (moved_from x) else Returns b'.

Fixpoint fill_loop (b : list T) (first : Z) (n : nat) (value : T)
  : Outcome (list T) :=
  match n with
  | O => Returns b
  | S n' => b' ← store b first value; fill_loop b' (first + 1) n' value
  end.

(** [std::fill(p + first, p + last, value)] *)
Definition std_fill (b : list T) (first last : Z) (value : T)
  : Outcome (list T) :=
  if last <? first then Undefined
  else fill_loop b first (Z.to_nat (last - first)) value.

Fixpoint generate_loop (b : list T) (first : Z) (n : nat) (g : unit → T)
  : Outcome (list T) :=
  match n with
  | O => Returns b
  | S n' => b' ← store b first (g tt); generate_loop b' (first + 1) n' g
  end.

(** [std::generate(p + first, p + last, g)] *)
Definition std_generate (b : list T) (first last : Z) (g : unit → T)
  : Outcome (list T) :=
  if last <? first then Undefined
  else generate_loop b first (Z.to_nat (last - first)) g.

Fixpoint copy_loop (src : list T) (first : Z) (n : nat)
    (dst : list T) (d_first : Z) : Outcome (list T) :=
  match n with
  | O => Returns dst
  | S n' =>
      x ← load src first;
      dst' ← store dst d_first x;
      copy_loop src (first + 1) n' dst' (d_first + 1)
  end.

(** [std::copy(s + first, s + last, d + d_first)], source block [s] read
    only, destination in another block *)
Definition std_copy (src : list T) (first last : Z)
    (dst : list T) (d_first : Z) : Outcome (list T) :=
  if last <? first then Undefined
  else copy_loop src first (Z.to_nat (last - first)) dst d_first.

Fixpoint move_loop (src : list T) (first : Z) (n : nat)
    (dst : list T) (d_first : Z) : Outcome (list T * list T) :=
  match n with
  | O => Returns (src, dst)
  | S n' =>
      x ← load src first;
      dst' ← store dst d_first x;
      src' ← store src first (moved_from x);
      move_loop src' (first + 1) n' dst' (d_first + 1)
  end.

(** [std::copy] through [std::make_move_iterator] into another block;
    returns the source block as the moves leave it and the destination. *)
Definition std_copy_move (src : list T) (first last : Z)
    (dst : list T) (d_first : Z) : Outcome (list T * list T) :=
  if last <? first then Undefined
  else move_loop src first (Z.to_nat (last - first)) dst d_first.

Fixpoint copy_within_loop (move : bool) (b : list T) (first : Z) (n : nat)
    (d_first : Z) : Outcome (list T) :=
  match n with
  | O => Returns b
  | S n' =>
      b' ← assign_within move b first d_first;
      copy_within_loop move b' (first + 1) n' (d_first + 1)
  end.

(** [std::copy(p + first, p + last, p + d_first)] inside one block,
    front to back *)
Definition std_copy_within (move : bool) (b : list T)
    (first last d_first : Z) : Outcome (list T) :=
  if last <? first then Undefined
  else copy_within_loop move b first (Z.to_nat (last - first)) d_first.

Fixpoint copy_backward_loop (move : bool) (b : list T) (last : Z) (n : nat)
    (d_last : Z) : Outcome (list T) :=
  match n with
  | O => Returns b
  | S n' =>
      b' ← assign_within move b (last - 1) (d_last - 1);
      copy_backward_loop move b' (last - 1) n' (d_last - 1)
  end.

(** [std::copy_backward(p + first, p + last, p + d_last)] inside one
    block, back to front *)
Definition std_copy_backward (move : bool) (b : list T)
    (first last d_last : Z) : Outcome (list T) :=
  if last <? first then Undefined
  else copy_backward_loop move b last (Z.to_nat (last - first)) d_last.

Fixpoint equal_loop (a : list T) (first1 : Z) (n : nat)
    (b : list T) (first2 : Z) : Outcome bool :=
  match n with
  | O => Returns true
  | S n' =>
      x ← load a first1;
      y ← load b first2;
      if op_eq x y then equal_loop a (first1 + 1) n' b (first2 + 1)
      else Returns false
  end.

(** [std::equal(a + first1, a + last1, b + first2, b + last2)] *)
Definition std_equal (a : list T) (first1 last1 : Z)
    (b : list T) (first2 last2 : Z) : Outcome bool :=
  if (last1 <? first1) || (last2 <? first2) then Undefined
  else if last1 - first1 =? last2 - first2 then
    equal_loop a first1 (Z.to_nat (last1 - first1)) b first2
  else Returns false.

Fixpoint lexicographical_loop (a : list T) (first1 : Z) (n1 : nat)
    (b : list T) (first2 : Z) (n2 : nat) : Outcome bool :=
  match n1, n2 with
  | S n1', S n2' =>
      x ← load a first1;
      y ← load b first2;
      if op_lt x y then Returns true
      else if op_lt y x then Returns false
      else lexicographical_loop a (first1 + 1) n1' b (first2 + 1) n2'
  | O, S _ => Returns true
  | _, O => Returns false
  end.

(** [std::lexicographical_compare(a + first1, a + last1,
                                  b + first2, b + last2)] *)
Definition std_lexicographical_compare (a : list T) (first1 last1 : Z)
    (b : list T) (first2 last2 : Z) : Outcome bool :=
  if (last1 <? first1) || (last2 <? first2) then Undefined
  else lexicographical_loop a first1 (Z.to_nat (last1 - first1))
                            b first2 (Z.to_nat (last2 - first2)).
End Memory.

(** ** ReserveProxyObj and the free function Reserve *)
Module ReserveProxyObj.
Record t := Build { capacity_to_reserve_ : Z }.

Definition GetCapacity (obj : t) : Z := capacity_to_reserve_ obj.
End ReserveProxyObj.

Definition Reserve (capacity_to_reserve : Z) : ReserveProxyObj.t :=
  ReserveProxyObj.Build capacity_to_reserve.

(** ** SimpleVector<Type> *)
Module SimpleVector.
Section Methods.
Context {T : Type} `{!Element T}.

Record t := Build {
  items_ : list T;
  size_ : Z;
  capacity_ : Z
}.

(** *** Constructors *)

(** [SimpleVector() noexcept = default] *)
Definition Default : t :=
  {| items_ := []; size_ := 0; capacity_ := 0 |}.

(** [explicit SimpleVector(size_t size)] *)
Definition Sized (size : Z) : Outcome t :=
  items ← std_fill (ArrayPtr_new size) 0 size default_value;
  Returns {| items_ := items; size_ := size; capacity_ := size |}.

(** [SimpleVector(size_t size, const Type& value)] *)
Definition Filled (size : Z) (value : T) : Outcome t :=
  items ← std_fill (ArrayPtr_new size) 0 size value;
  Returns {| items_ := items; size_ := size; capacity_ := size |}.

(** [SimpleVector(std::initializer_list<Type> init)] *)
Definition FromList (init : list T) : Outcome t :=
  let n := Z.of_nat (length init) in
  items ← std_copy init 0 n (ArrayPtr_new n) 0;
  Returns {| items_ := items; size_ := n; capacity_ := n |}.

(** [size_t GetSize() const noexcept] *)
Definition GetSize (v : t) : Z := size_ v.

(** [size_t GetCapacity() const noexcept] *)
Definition GetCapacity (v : t) : Z := capacity_ v.

(** [bool IsEmpty() const noexcept] *)
Definition IsEmpty (v : t) : bool := size_ v =? 0.

(** [begin()] and [end()], as offsets from [items_.Get()] *)
Definition begin (v : t) : Z := 0.
Definition end_ (v : t) : Z := size_ v.

(** [SimpleVector(const SimpleVector& other)] *)
Definition Copy (other : t) : Outcome t :=
  items ← std_copy (items_ other) (begin other) (end_ other)
                   (ArrayPtr_new (GetSize other)) 0;
  Returns {| items_ := items;
             size_ := GetSize other;
             capacity_ := GetCapacity other |}.

(** [SimpleVector(SimpleVector&& other)]: the new vector and the state
    [other] is left in *)
Definition Move (other : t) : t * t :=
  ({| items_ := items_ other;
      size_ := size_ other;
      capacity_ := capacity_ other |},
   {| items_ := []; size_ := 0; capacity_ := 0 |}).

(** [SimpleVector(ReserveProxyObj obj)] *)
Definition FromReserve (obj : ReserveProxyObj.t) : t :=
  {| items_ := []; size_ := 0;
     capacity_ := ReserveProxyObj.GetCapacity obj |}.

(** *** Element access *)

(** [Type& operator[](size_t index) noexcept] *)
Definition operator_index (v : t) (index : Z) : Outcome T :=
  load (items_ v) index.

(** [Type& At(size_t index)] *)
Definition At (v : t) (index : Z) : Outcome T :=
  if size_ v <=? index then ThrowsOutOfRange
  else load (items_ v) index.

(** *** Size and capacity *)

(** [void Resize(size_t new_size)] *)
Definition Resize (v : t) (new_size : Z) : Outcome t :=
  if new_size <=? size_ v then
    Returns {| items_ := items_ v;
               size_ := new_size;
               capacity_ := capacity_ v |}
  else if new_size <=? capacity_ v then
    items ← std_generate (items_ v) (size_ v) new_size
                         (λ _, default_value);
    Returns {| items_ := items;
               size_ := new_size;
               capacity_ := capacity_ v |}
  else
    let new_capacity := Z.max new_size (size_t (capacity_ v * 2)) in
    let tmp := ArrayPtr_new new_capacity in
    '(old, tmp) ← std_copy_move (items_ v) 0 (size_ v) tmp 0;
    tmp ← std_generate tmp (size_ v) new_capacity (λ _, default_value);
    (* items_.swap(tmp): [old] leaves with the temporary *)
    Returns {| items_ := tmp;
               size_ := new_size;
               capacity_ := new_capacity |}.

(** [void Clear() noexcept] *)
Definition Clear (v : t) : Outcome t := Resize v 0.

(** [void Reserve(size_t new_capacity)] *)
Definition Reserve (v : t) (new_capacity : Z) : Outcome t :=
  if capacity_ v <? new_capacity then
    let tmp := ArrayPtr_new new_capacity in
    '(old, tmp) ← std_copy_move (items_ v) 0 (size_ v) tmp 0;
    (* items_.swap(tmp): [old] leaves with the temporary *)
    Returns {| items_ := tmp;
               size_ := size_ v;
               capacity_ := new_capacity |}
  else Returns v.

(** *** Modifiers *)

(** [capacity_ == 0 ? 1 : capacity_ * 2] *)
Definition grown_capacity (v : t) : Z :=
  if capacity_ v =? 0 then 1 else size_t (capacity_ v * 2).

(** [void PushBack(const Type& item)] has no embedding: its growing branch
    applies [std::swap] to the constant parameter [item], which no overload
    of [std::swap] accepts, so the member cannot be instantiated for any
    call.  Every append that compiles is [PushBack(Type&&)]. *)

(** [void PushBack(Type&& item)]: the vector and the caller's [item] *)
Definition PushBack_move (v : t) (item : T) : Outcome (t * T) :=
  if size_ v <? capacity_ v then
    '(items, item) ← swap_slot (items_ v) (size_ v) item;
    Returns ({| items_ := items;
                size_ := size_t (size_ v + 1);
                capacity_ := capacity_ v |}, item)
  else
    let new_capacity := grown_capacity v in
    v ← Reserve v new_capacity;
    '(items, item) ← swap_slot (items_ v) (size_ v) item;
    Returns ({| items_ := items;
                size_ := size_t (size_ v + 1);
                capacity_ := capacity_ v |}, item).

(** The prologue shared by both [Insert] overloads: grow when full. *)
Definition grow_if_full (v : t) : Outcome t :=
  if capacity_ v <=? size_ v then
    let new_capacity := grown_capacity v in
    v ← Reserve v new_capacity;
    Returns {| items_ := items_ v;
               size_ := size_ v;
               capacity_ := new_capacity |}
  else Returns v.

(** [Iterator Insert(ConstIterator pos, const Type& value)] *)
Definition Insert (v : t) (pos : Z) (value : T) : Outcome (t * Z) :=
  assert ((begin v <=? pos) && (pos <=? end_ v));;
  let index := size_t (pos - begin v) in
  v ← grow_if_full v;
  items ← std_copy_backward false (items_ v) index (size_ v) (size_ v + 1);
  items ← store items index value;
  Returns ({| items_ := items;
              size_ := size_t (size_ v + 1);
              capacity_ := capacity_ v |}, index).

(** [Iterator Insert(ConstIterator pos, Type&& value)]: the vector, the
    returned iterator and the caller's [value] *)
Definition Insert_move (v : t) (pos : Z) (value : T)
  : Outcome (t * Z * T) :=
  assert ((begin v <=? pos) && (pos <=? end_ v));;
  let index := size_t (pos - begin v) in
  v ← grow_if_full v;
  items ← std_copy_backward true (items_ v) index (size_ v) (size_ v + 1);
  '(items, value) ← swap_slot items index value;
  Returns ({| items_ := items;
              size_ := size_t (size_ v + 1);
              capacity_ := capacity_ v |}, index, value).

(** [void PopBack() noexcept] *)
Definition PopBack (v : t) : t :=
  {| items_ := items_ v;
     size_ := size_t (size_ v - 1);
     capacity_ := capacity_ v |}.

(** [Iterator Erase(ConstIterator pos)] *)
Definition Erase (v : t) (pos : Z) : Outcome (t * Z) :=
  assert ((begin v <=? pos) && (pos <=? end_ v));;
  let index := size_t (pos - begin v) in
  items ← std_copy_within true (items_ v) (index + 1) (size_ v) index;
  Returns ({| items_ := items;
              size_ := size_t (size_ v - 1);
              capacity_ := capacity_ v |}, index).

(** [void swap(SimpleVector& other) noexcept]: [*this] and [other]
    afterwards *)
Definition swap (v other : t) : t * t :=
  ({| items_ := items_ other;
      size_ := size_ other;
      capacity_ := capacity_ other |},
   {| items_ := items_ v;
      size_ := size_ v;
      capacity_ := capacity_ v |}).

(** [operator=(const SimpleVector& rhs)] for [this != &rhs] *)
Definition operator_assign (v rhs : t) : Outcome t :=
  tmp ← Copy rhs;
  Returns (swap v tmp).1.

(** [operator=(SimpleVector&& rhs) noexcept] for [this != &rhs]: [*this]
    and [rhs] afterwards.  [rhs] is a named reference, so [tmp(rhs)] is
    the copy constructor. *)
Definition operator_assign_move (v rhs : t) : Outcome (t * t) :=
  tmp ← Copy rhs;
  Returns ((swap v tmp).1, rhs).

(** *** What the claims speak about *)

(** The live elements, slots [0 .. size) *)
Definition elements (v : t) : list T :=
  take (Z.to_nat (size_ v)) (items_ v).

(** The class invariant: [size <= capacity], the capacity field is the
    number of slots of the owned block, and both fields are [size_t]
    values. *)
Definition wf (v : t) : Prop :=
  0 <= size_ v ∧ size_ v <= capacity_ v ∧
  capacity_ v = Z.of_nat (length (items_ v)) ∧
  capacity_ v <= SIZE_MAX.

#[global] Instance wf_dec v : Decision (wf v).
Proof. unfold wf. apply _. Defined.
End Methods.
Arguments t T : clear implicits.
End SimpleVector.

(** ** Comparison operators *)
Section Operators.
Context {T : Type} `{!Element T}.
Import SimpleVector.

Definition operator_eq (lhs rhs : SimpleVector.t T) : Outcome bool :=
  if GetSize lhs =? GetSize rhs then
    std_equal (items_ lhs) (begin lhs) (end_ lhs)
              (items_ rhs) (begin rhs) (end_ rhs)
  else Returns false.

Definition operator_ne (lhs rhs : SimpleVector.t T) : Outcome bool :=
  e ← operator_eq lhs rhs; Returns (negb e).

Definition operator_lt (lhs rhs : SimpleVector.t T) : Outcome bool :=
  std_lexicographical_compare (items_ lhs) (begin lhs) (end_ lhs)
                              (items_ rhs) (begin rhs) (end_ rhs).

(** [!(lhs < rhs) && lhs != rhs], the right operand only when needed *)
Definition operator_gt (lhs rhs : SimpleVector.t T) : Outcome bool :=
  l ← operator_lt lhs rhs;
  if negb l then operator_ne lhs rhs else Returns false.

Definition operator_le (lhs rhs : SimpleVector.t T) : Outcome bool :=
  g ← operator_gt lhs rhs; Returns (negb g).

Definition operator_ge (lhs rhs : SimpleVector.t T) : Outcome bool :=
  l ← operator_lt lhs rhs; Returns (negb l).
End Operators.

(** ** Repeated appends and the comparison vocabulary of the claims *)
Section Vocabulary.
Context {T : Type} `{!Element T}.

(** [for (x : xs) v.PushBack(std::move(x));] *)
Fixpoint PushBack_move_all (v : SimpleVector.t T) (xs : list T)
  : Outcome (SimpleVector.t T) :=
  match xs with
  | [] => Returns v
  | x :: xs' =>
      '(v', _) ← SimpleVector.PushBack_move v x; PushBack_move_all v' xs'
  end.

(** Element-wise equality of two sequences, in order *)
Definition elementwise_equal (la lb : list T) : Prop :=
  Forall2 (λ x y, op_eq x y = true) la lb.

(** Lexicographic precedence: the first unequal position decides, and a
    proper prefix precedes the longer sequence. *)
Inductive lex_precedes : list T → list T → Prop :=
| lex_shorter y lb : lex_precedes [] (y :: lb)
| lex_head x la y lb : op_lt x y = true → lex_precedes (x :: la) (y :: lb)
| lex_tail x la y lb :
    op_eq x y = true → lex_precedes la lb →
    lex_precedes (x :: la) (y :: lb).

(** Equality of elements is the equivalence of their ordering. *)
Definition consistent_order : Prop :=
  ∀ x y : T, op_eq x y = true ↔ op_lt x y = false ∧ op_lt y x = false.
End Vocabulary.

(** ** An element type for the examples: [int] *)
#[global] Instance Z_Element : Element Z := {|
  default_value := 0;
  moved_from := λ x, x;
  op_eq := Z.eqb;
  op_lt := Z.ltb
|}.

(** Vectors used in the examples below *)
Definition list_123_reserved_10 : Outcome (SimpleVector.t Z) :=
  v ← SimpleVector.FromList [1; 2; 3];
  SimpleVector.Reserve v 10.

Definition copy_of_list_123_reserved_10 : Outcome (SimpleVector.t Z) :=
  v ← list_123_reserved_10;
  SimpleVector.Copy v.

Definition reserved_5 : SimpleVector.t Z :=
  SimpleVector.FromReserve (Reserve 5).

Definition vec (items : list Z) (size capacity : Z) : SimpleVector.t Z :=
  SimpleVector.Build items size capacity.

(** * Proofs *)

Lemma bind_Returns {A B} (a : A) (f : A → Outcome B) :
  (Returns a ≫= f) = f a.
Proof. reflexivity. Qed.

Lemma bind_Returns_inv {A B} (m : Outcome A) (f : A → Outcome B) (r : B) :
  m ≫= f = Returns r → ∃ a, m = Returns a ∧ f a = Returns r.
Proof. destruct m; try discriminate. intros. eauto. Qed.

Lemma size_t_id n : 0 <= n <= SIZE_MAX → size_t n = n.
Proof. unfold size_t, SIZE_MAX. intros. apply Z.mod_small. lia. Qed.

Section MemoryFacts.
Context {T : Type} `{!Element T}.
Implicit Types (b src dst : list T) (i j f d n : nat) (x : T).

Local Open Scope nat_scope.

Lemma load_nat b i x : b !! i = Some x → load b (Z.of_nat i) = Returns x.
Proof.
  intros Hx. unfold load.
  destruct (Z.leb_spec 0 (Z.of_nat i)); [|lia].
  by rewrite Nat2Z.id, Hx.
Qed.

Lemma load_in b i : i < length b → ∃ x, b !! i = Some x ∧ load b (Z.of_nat i) = Returns x.
Proof.
  intros Hi. destruct (lookup_lt_is_Some_2 b i Hi) as [x Hx].
  exists x. split; [done|]. by apply load_nat.
Qed.

Lemma load_out b (z : Z) : (z < 0 ∨ Z.of_nat (length b) <= z)%Z → load b z = Undefined.
Proof.
  intros Hz. unfold load. destruct (Z.leb_spec 0 z); [|done].
  rewrite (lookup_ge_None_2 b (Z.to_nat z)); [done|lia].
Qed.

Lemma store_nat b i x :
  i < length b → store b (Z.of_nat i) x = Returns (<[i:=x]> b).
Proof.
  intros Hi. unfold store.
  destruct (Z.leb_spec 0 (Z.of_nat i)); [|lia].
  destruct (Z.ltb_spec (Z.of_nat i) (Z.of_nat (length b))); [|lia].
  by rewrite Nat2Z.id.
Qed.

Lemma store_Z b (z : Z) x :
  (0 <= z < Z.of_nat (length b))%Z →
  store b z x = Returns (<[Z.to_nat z := x]> b).
Proof.
  intros Hz. rewrite <- (Z2Nat.id z) at 1 by lia. apply store_nat. lia.
Qed.

Lemma swap_slot_Z b (z : Z) x :
  (0 <= z < Z.of_nat (length b))%Z →
  ∃ y, swap_slot b z x = Returns (<[Z.to_nat z := x]> b, y).
Proof.
  intros Hz. unfold swap_slot.
  destruct (load_in b (Z.to_nat z)) as (y & _ & Hload); [lia|].
  rewrite Z2Nat.id in Hload by lia.
  rewrite Hload, bind_Returns, store_Z by done. by exists y.
Qed.

Lemma take_S_insert b (s : nat) x :
  s < length b → take (S s) (<[s:=x]> b) = take s b ++ [x].
Proof.
  intros Hs. rewrite (take_S_r _ _ x) by (by apply list_lookup_insert_eq).
  by rewrite take_insert_ge.
Qed.

Lemma fill_loop_spec n : ∀ b f x,
  f + n ≤ length b →
  ∃ b', fill_loop b (Z.of_nat f) n x = Returns b' ∧
        length b' = length b ∧
        ∀ j, b' !! j = if decide (f ≤ j < f + n) then Some x else b !! j.
Proof.
  induction n as [|n IH]; intros b f x Hn; simpl.
  - exists b. repeat split. intros j. case_decide; [lia|done].
  - rewrite store_nat by lia. rewrite bind_Returns.
    replace (Z.of_nat f + 1)%Z with (Z.of_nat (S f)) by lia.
    destruct (IH (<[f:=x]> b) (S f) x) as (b' & -> & Hlen & Hb').
    { rewrite length_insert. lia. }
    exists b'. rewrite length_insert in Hlen. repeat split; [done|].
    intros j. rewrite Hb'. rewrite list_lookup_insert.
    repeat case_decide; try done; lia.
Qed.

Lemma generate_loop_fill n : ∀ b (z : Z) (g : unit → T),
  generate_loop b z n g = fill_loop b z n (g tt).
Proof.
  induction n as [|n IH]; intros b z g; simpl; [done|].
  destruct (store b z (g tt)); simpl; auto.
Qed.

Lemma copy_loop_spec n : ∀ src f dst d,
  f + n ≤ length src → d + n ≤ length dst →
  ∃ dst', copy_loop src (Z.of_nat f) n dst (Z.of_nat d) = Returns dst' ∧
          length dst' = length dst ∧
          ∀ j, dst' !! j =
               if decide (d ≤ j < d + n) then src !! (j - d + f)
               else dst !! j.
Proof.
  induction n as [|n IH]; intros src f dst d Hs Hd; simpl.
  - exists dst. repeat split. intros j. case_decide; [lia|done].
  - destruct (load_in src f) as (x & Hx & ->); [lia|].
    rewrite bind_Returns, store_nat by lia. rewrite bind_Returns.
    replace (Z.of_nat f + 1)%Z with (Z.of_nat (S f)) by lia.
    replace (Z.of_nat d + 1)%Z with (Z.of_nat (S d)) by lia.
    destruct (IH src (S f) (<[d:=x]> dst) (S d)) as (dst' & -> & Hlen & Hd');
      [lia|rewrite length_insert; lia|].
    exists dst'. rewrite length_insert in Hlen. repeat split; [done|].
    intros j. rewrite Hd', list_lookup_insert.
    repeat case_decide; try done; try lia.
    + f_equal. lia.
    + replace (j - d + f) with f by lia. done.
Qed.

Lemma move_loop_spec n : ∀ src f dst d,
  f + n ≤ length src → d + n ≤ length dst →
  ∃ src' dst',
    move_loop src (Z.of_nat f) n dst (Z.of_nat d) = Returns (src', dst') ∧
    length dst' = length dst ∧
    ∀ j, dst' !! j =
         if decide (d ≤ j < d + n) then src !! (j - d + f)
         else dst !! j.
Proof.
  induction n as [|n IH]; intros src f dst d Hs Hd; simpl.
  - exists src, dst. repeat split. intros j. case_decide; [lia|done].
  - destruct (load_in src f) as (x & Hx & ->); [lia|].
    rewrite bind_Returns, (store_nat dst) by lia. rewrite bind_Returns.
    rewrite (store_nat src) by lia. rewrite bind_Returns.
    replace (Z.of_nat f + 1)%Z with (Z.of_nat (S f)) by lia.
    replace (Z.of_nat d + 1)%Z with (Z.of_nat (S d)) by lia.
    destruct (IH (<[f:=moved_from x]> src) (S f) (<[d:=x]> dst) (S d))
      as (src' & dst' & -> & Hlen & Hd');
      [rewrite length_insert; lia|rewrite length_insert; lia|].
    exists src', dst'. rewrite length_insert in Hlen. repeat split; [done|].
    intros j. rewrite Hd'. rewrite !list_lookup_insert.
    repeat case_decide; try done; try lia.
    + f_equal. lia.
    + replace (j - d + f) with f by lia. done.
Qed.

Lemma assign_within_spec (move : bool) b i k :
  i < length b → k < length b → i ≠ k →
  ∃ x b', b !! i = Some x ∧
          assign_within move b (Z.of_nat i) (Z.of_nat k) = Returns b' ∧
          length b' = length b ∧
          b' !! k = Some x ∧
          ∀ j, j ≠ i → j ≠ k → b' !! j = b !! j.
Proof.
  intros Hi Hk Hik. unfold assign_within.
  destruct (load_in b i) as (x & Hx & ->); [done|].
  rewrite bind_Returns, store_nat by done. rewrite bind_Returns.
  exists x. destruct move.
  - rewrite store_nat by (rewrite length_insert; lia).
    eexists. split; [done|]. split; [done|].
    rewrite !length_insert. split; [done|]. split.
    + rewrite list_lookup_insert_ne by done.
      by rewrite list_lookup_insert_eq.
    + intros j ??. by rewrite !list_lookup_insert_ne.
  - eexists. split; [done|]. split; [done|].
    rewrite !length_insert. split; [done|]. split.
    + by rewrite list_lookup_insert_eq.
    + intros j ??. by rewrite !list_lookup_insert_ne.
Qed.

(** Shifting a run one slot towards the head *)
Lemma copy_within_loop_spec (move : bool) n : ∀ b i,
  S i + n ≤ length b →
  ∃ b', copy_within_loop move b (Z.of_nat (S i)) n (Z.of_nat i)
          = Returns b' ∧
        length b' = length b ∧
        ∀ j, (i ≤ j < i + n → b' !! j = b !! S j) ∧
             (j < i ∨ S i + n ≤ j → b' !! j = b !! j).
Proof.
  induction n as [|n IH]; intros b i Hn; simpl.
  - exists b. split; [done|]. split; [done|]. intros j. split; [lia|done].
  - destruct (assign_within_spec move b (S i) i)
      as (x & b1 & Hx & -> & Hlen1 & Hb1i & Hb1); [lia..|].
    rewrite bind_Returns.
    replace (Z.of_nat (S i) + 1)%Z with (Z.of_nat (S (S i))) by lia.
    replace (Z.of_nat i + 1)%Z with (Z.of_nat (S i)) by lia.
    destruct (IH b1 (S i)) as (b' & -> & Hlen & Hb'); [lia|].
    exists b'. split; [done|]. split; [lia|].
    intros j. destruct (Hb' j) as [Hin Hout]. split; intros Hj.
    + destruct (decide (j = i)) as [->|].
      * rewrite Hout by lia. by rewrite Hb1i, Hx.
      * rewrite Hin by lia. apply Hb1; lia.
    + rewrite Hout by lia. apply Hb1; lia.
Qed.

(** Shifting a run one slot towards the tail *)
Lemma copy_backward_loop_spec (move : bool) n : ∀ b l,
  n ≤ l → l < length b →
  ∃ b', copy_backward_loop move b (Z.of_nat l) n (Z.of_nat (S l))
          = Returns b' ∧
        length b' = length b ∧
        ∀ j, (l - n < j ≤ l → b' !! j = b !! (j - 1)) ∧
             (j < l - n ∨ l < j → b' !! j = b !! j).
Proof.
  induction n as [|n IH]; intros b l Hn Hl; simpl.
  - exists b. split; [done|]. split; [done|]. intros j. split; [lia|done].
  - replace (Z.of_nat l - 1)%Z with (Z.of_nat (l - 1)) by lia.
    replace (Z.of_nat (S l) - 1)%Z with (Z.of_nat l) by lia.
    destruct (assign_within_spec move b (l - 1) l)
      as (x & b1 & Hx & -> & Hlen1 & Hb1l & Hb1); [lia..|].
    rewrite bind_Returns.
    destruct (IH b1 (l - 1)) as (b' & Hrun & Hlen & Hb'); [lia..|].
    replace (S (l - 1)) with l in Hrun by lia.
    exists b'. split; [done|]. split; [lia|].
    intros j. destruct (Hb' j) as [Hin Hout]. split; intros Hj.
    + destruct (decide (j = l)) as [->|].
      * rewrite Hout by lia. by rewrite Hb1l, Hx.
      * rewrite Hin by lia. apply Hb1; lia.
    + rewrite Hout by lia. apply Hb1; lia.
Qed.
Lemma equal_loop_spec n : ∀ (a : list T) f (c : list T) g,
  f + n ≤ length a → g + n ≤ length c →
  ∃ r, equal_loop a (Z.of_nat f) n c (Z.of_nat g) = Returns r ∧
       (r = true ↔
        elementwise_equal (take n (drop f a)) (take n (drop g c))).
Proof.
  unfold elementwise_equal.
  induction n as [|n IH]; intros a f c g Ha Hc; simpl.
  - exists true. split; [done|]. rewrite !take_0.
    split; [intros _; apply Forall2_nil|done].
  - destruct (load_in a f) as (x & Hx & ->); [lia|].
    destruct (load_in c g) as (y & Hy & ->); [lia|].
    rewrite !bind_Returns.
    rewrite (drop_S a x f Hx), (drop_S c y g Hy). simpl.
    replace (Z.of_nat f + 1)%Z with (Z.of_nat (S f)) by lia.
    replace (Z.of_nat g + 1)%Z with (Z.of_nat (S g)) by lia.
    destruct (op_eq x y) eqn:Hxy.
    + destruct (IH a (S f) c (S g)) as (r & -> & Hr); [lia..|].
      exists r. split; [done|]. rewrite Hr. split.
      * intros Htl. by constructor.
      * intros Hall. by inversion Hall.
    + exists false. split; [done|]. split; [done|].
      intros Hall. inversion Hall. congruence.
Qed.

Lemma lexicographical_loop_spec n1 : ∀ n2 (a : list T) f (c : list T) g,
  f + n1 ≤ length a → g + n2 ≤ length c →
  ∃ r, lexicographical_loop a (Z.of_nat f) n1 c (Z.of_nat g) n2
       = Returns r ∧
       (consistent_order (T:=T) →
        r = true ↔
        lex_precedes (take n1 (drop f a)) (take n2 (drop g c))).
Proof.
  induction n1 as [|n1 IH]; intros n2 a f c g Ha Hc.
  - destruct n2 as [|n2]; simpl.
    + exists false. split; [done|]. intros _. rewrite !take_0.
      split; [done|]. intros Hlex. inversion Hlex.
    + destruct (lookup_lt_is_Some_2 c g) as [y Hy]; [lia|].
      exists true. split; [done|]. intros _.
      rewrite (drop_S c y g Hy), take_0. simpl.
      split; [intros _; apply lex_shorter|done].
  - destruct (load_in a f) as (x & Hx & Hloadx); [lia|].
    rewrite (drop_S a x f Hx).
    destruct n2 as [|n2]; simpl.
    + exists false. split; [done|]. intros _. rewrite take_0.
      split; [done|]. intros Hlex. inversion Hlex.
    + destruct (load_in c g) as (y & Hy & Hloady); [lia|].
      rewrite (drop_S c y g Hy), Hloadx, Hloady, !bind_Returns. simpl.
      replace (Z.of_nat f + 1)%Z with (Z.of_nat (S f)) by lia.
      replace (Z.of_nat g + 1)%Z with (Z.of_nat (S g)) by lia.
      destruct (op_lt x y) eqn:Hxy.
      { exists true. split; [done|]. intros _. split; [|done].
        intros _. by apply lex_head. }
      destruct (op_lt y x) eqn:Hyx.
      { exists false. split; [done|]. intros Hord. split; [done|].
        intros Hlex. inversion Hlex; subst; [congruence|].
        match goal with Heq : op_eq x y = true |- _ =>
          apply Hord in Heq; destruct Heq; congruence end. }
      destruct (IH n2 a (S f) c (S g)) as (r & -> & Hr); [lia..|].
      exists r. split; [done|]. intros Hord. rewrite (Hr Hord). split.
      * intros Htl. apply lex_tail; [|done]. by apply Hord.
      * intros Hlex. inversion Hlex; subst; [congruence|done].
Qed.
End MemoryFacts.

(** Closed forms of the algorithms on the ranges the vector uses *)
Section AlgorithmFacts.
Context {T : Type} `{!Element T}.
Implicit Types (b src dst : list T).

Local Open Scope nat_scope.

Lemma lookup_replicate_dec (n j : nat) (x : T) :
  replicate n x !! j = if decide (j < n) then Some x else None.
Proof.
  case_decide.
  - by apply lookup_replicate_2.
  - apply lookup_replicate_None. lia.
Qed.

Lemma lookup_take_drop src dst (s j : nat) :
  s ≤ length src →
  (take s src ++ drop s dst) !! j =
  if decide (j < s) then src !! j else dst !! j.
Proof.
  intros Hs. case_decide.
  - rewrite lookup_app_l by (rewrite length_take; lia).
    by apply lookup_take_lt.
  - rewrite lookup_app_r by (rewrite length_take; lia).
    rewrite length_take, lookup_drop. f_equal. lia.
Qed.

Lemma std_copy_prefix src dst (n : Z) :
  (0 <= n <= Z.of_nat (length src))%Z → (n <= Z.of_nat (length dst))%Z →
  std_copy src 0 n dst 0
  = Returns (take (Z.to_nat n) src ++ drop (Z.to_nat n) dst).
Proof.
  intros Hs Hd. unfold std_copy.
  destruct (Z.ltb_spec n 0); [lia|].
  replace (n - 0)%Z with n by lia.
  destruct (copy_loop_spec (Z.to_nat n) src 0 dst 0)
    as (dst' & Hrun & Hlen & Hdst'); [lia..|].
  change (Z.of_nat 0) with 0%Z in Hrun. rewrite Hrun. f_equal.
  apply list_eq. intros j.
  rewrite Hdst', lookup_take_drop by lia.
  repeat case_decide; try lia; [f_equal; lia|done].
Qed.

Lemma std_copy_move_prefix src dst (n : Z) :
  (0 <= n <= Z.of_nat (length src))%Z → (n <= Z.of_nat (length dst))%Z →
  ∃ src', std_copy_move src 0 n dst 0
          = Returns (src', take (Z.to_nat n) src ++ drop (Z.to_nat n) dst).
Proof.
  intros Hs Hd. unfold std_copy_move.
  destruct (Z.ltb_spec n 0); [lia|].
  replace (n - 0)%Z with n by lia.
  destruct (move_loop_spec (Z.to_nat n) src 0 dst 0)
    as (src' & dst' & Hrun & Hlen & Hdst'); [lia..|].
  change (Z.of_nat 0) with 0%Z in Hrun. rewrite Hrun.
  exists src'. do 2 f_equal.
  apply list_eq. intros j.
  rewrite Hdst', lookup_take_drop by lia.
  repeat case_decide; try lia; [f_equal; lia|done].
Qed.

Lemma std_fill_range b (first last : Z) (x : T) :
  (0 <= first <= last)%Z → (last <= Z.of_nat (length b))%Z →
  std_fill b first last x
  = Returns (take (Z.to_nat first) b
             ++ replicate (Z.to_nat (last - first)) x
             ++ drop (Z.to_nat last) b).
Proof.
  intros Hf Hl. unfold std_fill.
  destruct (Z.ltb_spec last first); [lia|].
  destruct (fill_loop_spec (Z.to_nat (last - first)) b (Z.to_nat first) x)
    as (b' & Hrun & Hlen & Hb'); [lia|].
  rewrite Z2Nat.id in Hrun by lia. rewrite Hrun. f_equal.
  apply list_eq. intros j. rewrite Hb'.
  destruct (decide (j < Z.to_nat first)).
  - rewrite lookup_app_l by (rewrite length_take; lia).
    rewrite lookup_take_lt by done. case_decide; [lia|done].
  - rewrite lookup_app_r by (rewrite length_take; lia).
    rewrite length_take, Nat.min_l by lia.
    destruct (decide (j < Z.to_nat last)).
    + rewrite lookup_app_l by (rewrite length_replicate; lia).
      rewrite lookup_replicate_dec.
      repeat case_decide; try lia; done.
    + rewrite lookup_app_r by (rewrite length_replicate; lia).
      rewrite length_replicate, lookup_drop.
      case_decide; [lia|]. f_equal. lia.
Qed.

Lemma std_generate_range b (first last : Z) (g : unit → T) :
  (0 <= first <= last)%Z → (last <= Z.of_nat (length b))%Z →
  std_generate b first last g
  = Returns (take (Z.to_nat first) b
             ++ replicate (Z.to_nat (last - first)) (g tt)
             ++ drop (Z.to_nat last) b).
Proof.
  intros Hf Hl. rewrite <- std_fill_range by done.
  unfold std_generate, std_fill. by rewrite generate_loop_fill.
Qed.

(** [std::copy_backward(p + i, p + s, p + s + 1)]: slots [i .. s) move to
    [i + 1 .. s + 1); slot [i] is left with some value. *)
Lemma std_copy_backward_shift (move : bool) b (i s : nat) :
  i ≤ s → s < length b →
  ∃ y, std_copy_backward move b (Z.of_nat i) (Z.of_nat s) (Z.of_nat s + 1)
       = Returns (take i b ++ y :: take (s - i) (drop i b)
                  ++ drop (S s) b).
Proof.
  intros His Hs. unfold std_copy_backward.
  destruct (Z.ltb_spec (Z.of_nat s) (Z.of_nat i)); [lia|].
  replace (Z.of_nat s + 1)%Z with (Z.of_nat (S s)) by lia.
  replace (Z.to_nat (Z.of_nat s - Z.of_nat i)) with (s - i) by lia.
  destruct (copy_backward_loop_spec move (s - i) b s)
    as (b' & -> & Hlen & Hb'); [lia..|].
  destruct (lookup_lt_is_Some_2 b' i) as [y Hy]; [lia|].
  exists y. f_equal. apply list_eq. intros j.
  destruct (Hb' j) as [Hin Hout].
  destruct (decide (j < i)).
  - rewrite lookup_app_l by (rewrite length_take; lia).
    rewrite lookup_take_lt by done. apply Hout. lia.
  - rewrite lookup_app_r by (rewrite length_take; lia).
    rewrite length_take, Nat.min_l by lia.
    destruct (decide (j = i)) as [->|].
    { by rewrite Nat.sub_diag. }
    rewrite lookup_cons_ne_0 by lia.
    destruct (decide (j ≤ s)).
    + rewrite lookup_app_l by (rewrite length_take, length_drop; lia).
      rewrite lookup_take_lt by lia. rewrite lookup_drop.
      rewrite Hin by lia. f_equal. lia.
    + rewrite lookup_app_r by (rewrite length_take, length_drop; lia).
      rewrite length_take, length_drop, lookup_drop.
      rewrite Hout by lia. f_equal. lia.
Qed.

(** [std::copy(p + i + 1, p + s, p + i)]: slots [i + 1 .. s) move to
    [i .. s - 1); slot [s - 1] is left with some value. *)
Lemma std_copy_within_shift (move : bool) b (i s : nat) :
  i < s → s ≤ length b →
  ∃ y, std_copy_within move b (Z.of_nat i + 1) (Z.of_nat s) (Z.of_nat i)
       = Returns (take i b ++ take (s - S i) (drop (S i) b)
                  ++ y :: drop s b).
Proof.
  intros His Hs. unfold std_copy_within.
  destruct (Z.ltb_spec (Z.of_nat s) (Z.of_nat i + 1)); [lia|].
  replace (Z.of_nat i + 1)%Z with (Z.of_nat (S i)) by lia.
  replace (Z.to_nat (Z.of_nat s - Z.of_nat (S i))) with (s - S i) by lia.
  destruct (copy_within_loop_spec move (s - S i) b i)
    as (b' & -> & Hlen & Hb'); [lia|].
  destruct (lookup_lt_is_Some_2 b' (s - 1)) as [y Hy]; [lia|].
  exists y. f_equal. apply list_eq. intros j.
  destruct (Hb' j) as [Hin Hout].
  destruct (decide (j < i)).
  - rewrite lookup_app_l by (rewrite length_take; lia).
    rewrite lookup_take_lt by done. apply Hout. lia.
  - rewrite lookup_app_r by (rewrite length_take; lia).
    rewrite length_take, Nat.min_l by lia.
    destruct (decide (j < s - 1)).
    + rewrite lookup_app_l by (rewrite length_take, length_drop; lia).
      rewrite lookup_take_lt by lia. rewrite lookup_drop.
      rewrite Hin by lia. f_equal. lia.
    + rewrite lookup_app_r by (rewrite length_take, length_drop; lia).
      rewrite length_take, length_drop.
      destruct (decide (j = s - 1)) as [->|].
      { replace (s - 1 - i - (s - S i) `min` (length b - S i)) with 0 by lia.
        done. }
      rewrite lookup_cons_ne_0 by lia. rewrite lookup_drop.
      rewrite Hout by lia. f_equal. lia.
Qed.
Lemma std_copy_backward_shift_Z (move : bool) b (i s : Z) :
  (0 <= i <= s)%Z → (s < Z.of_nat (length b))%Z →
  ∃ y, std_copy_backward move b i s (s + 1)
       = Returns (take (Z.to_nat i) b
                  ++ y :: take (Z.to_nat s - Z.to_nat i)
                               (drop (Z.to_nat i) b)
                  ++ drop (S (Z.to_nat s)) b).
Proof.
  intros Hi Hs.
  destruct (std_copy_backward_shift move b (Z.to_nat i) (Z.to_nat s))
    as (y & Hy); [lia..|].
  rewrite !Z2Nat.id in Hy by lia. by exists y.
Qed.

Lemma std_copy_within_shift_Z (move : bool) b (i s : Z) :
  (0 <= i < s)%Z → (s <= Z.of_nat (length b))%Z →
  ∃ y, std_copy_within move b (i + 1) s i
       = Returns (take (Z.to_nat i) b
                  ++ take (Z.to_nat s - S (Z.to_nat i))
                          (drop (S (Z.to_nat i)) b)
                  ++ y :: drop (Z.to_nat s) b).
Proof.
  intros Hi Hs.
  destruct (std_copy_within_shift move b (Z.to_nat i) (Z.to_nat s))
    as (y & Hy); [lia..|].
  rewrite !Z2Nat.id in Hy by lia. by exists y.
Qed.

Lemma insert_middle (l1 l2 : list T) (i : nat) (x y : T) :
  length l1 = i → <[i:=x]> (l1 ++ y :: l2) = l1 ++ x :: l2.
Proof.
  intros <-. rewrite insert_app_r_alt by done. by rewrite Nat.sub_diag.
Qed.
End AlgorithmFacts.

(** Facts about the methods, for vectors that satisfy the class invariant *)
Section VectorFacts.
Context {T : Type} `{!Element T}.
Import SimpleVector.
Implicit Types (v other : SimpleVector.t T) (x item value : T).

Lemma wf_size_nat v :
  wf v →
  size_ v = Z.of_nat (Z.to_nat (size_ v)) ∧
  (Z.to_nat (size_ v) ≤ length (items_ v))%nat.
Proof. unfold wf. lia. Qed.

Lemma length_elements v : wf v → Z.of_nat (length (elements v)) = size_ v.
Proof. unfold wf, elements. rewrite length_take. lia. Qed.

Lemma elements_app_tail v (tail : list T) (s c : Z) :
  wf v → s = size_ v →
  elements {| items_ := elements v ++ tail; size_ := s; capacity_ := c |}
  = elements v.
Proof.
  intros Hwf ->. unfold elements at 1. simpl.
  rewrite take_app_le;
    [|unfold elements; rewrite length_take; unfold wf in Hwf; lia].
  unfold elements. rewrite take_take. f_equal. lia.
Qed.

Lemma Reserve_noop v (n : Z) : n <= capacity_ v → Reserve v n = Returns v.
Proof.
  intros Hn. unfold Reserve.
  destruct (Z.ltb_spec (capacity_ v) n); [lia|done].
Qed.

Lemma Reserve_grow v (n : Z) :
  wf v → capacity_ v < n →
  Reserve v n
  = Returns {| items_ := elements v
                 ++ replicate (Z.to_nat n - Z.to_nat (size_ v)) default_value;
               size_ := size_ v;
               capacity_ := n |}.
Proof.
  intros Hwf Hn. unfold Reserve.
  destruct (Z.ltb_spec (capacity_ v) n); [|lia].
  destruct (std_copy_move_prefix (items_ v) (ArrayPtr_new n) (size_ v))
    as (old & ->).
  { unfold wf in Hwf. lia. }
  { unfold ArrayPtr_new. rewrite length_replicate. unfold wf in Hwf. lia. }
  rewrite bind_Returns. unfold ArrayPtr_new. by rewrite drop_replicate.
Qed.

Lemma wf_grown v (n : Z) :
  wf v → capacity_ v < n → n <= SIZE_MAX →
  wf {| items_ := elements v
          ++ replicate (Z.to_nat n - Z.to_nat (size_ v)) default_value;
        size_ := size_ v;
        capacity_ := n |}.
Proof.
  intros Hwf Hn Hmax. pose proof (length_elements v Hwf).
  unfold wf in *. simpl. rewrite length_app, length_replicate. lia.
Qed.

Lemma Copy_spec other :
  wf other →
  Copy other = Returns {| items_ := elements other;
                          size_ := size_ other;
                          capacity_ := capacity_ other |}.
Proof.
  intros Hwf. unfold Copy, begin, end_, GetSize, GetCapacity.
  rewrite std_copy_prefix.
  - rewrite bind_Returns. unfold ArrayPtr_new.
    rewrite drop_replicate, Nat.sub_diag. simpl.
    by rewrite app_nil_r.
  - unfold wf in Hwf. lia.
  - unfold ArrayPtr_new. rewrite length_replicate. unfold wf in Hwf. lia.
Qed.

Lemma FromList_spec (init : list T) :
  FromList init = Returns {| items_ := init;
                             size_ := Z.of_nat (length init);
                             capacity_ := Z.of_nat (length init) |}.
Proof.
  unfold FromList. rewrite std_copy_prefix.
  - rewrite bind_Returns. unfold ArrayPtr_new.
    rewrite Nat2Z.id, drop_replicate, Nat.sub_diag, take_ge by done.
    simpl. by rewrite app_nil_r.
  - lia.
  - unfold ArrayPtr_new. rewrite length_replicate. lia.
Qed.

Lemma Filled_spec (n : Z) x :
  0 <= n →
  Filled n x = Returns {| items_ := replicate (Z.to_nat n) x;
                          size_ := n; capacity_ := n |}.
Proof.
  intros Hn. unfold Filled. rewrite std_fill_range.
  - rewrite bind_Returns. unfold ArrayPtr_new.
    rewrite drop_replicate, Nat.sub_diag, Z.sub_0_r. simpl.
    by rewrite app_nil_r.
  - lia.
  - unfold ArrayPtr_new. rewrite length_replicate. lia.
Qed.

Lemma Sized_spec (n : Z) :
  0 <= n →
  Sized n = Returns {| items_ := replicate (Z.to_nat n) default_value;
                       size_ := n; capacity_ := n |}.
Proof. apply Filled_spec. Qed.

(** The constructors other than the copying and the reserving one
    establish the invariant. *)
Lemma constructors_wf :
  wf (Default (T:=T)) ∧
  (∀ n x v, 0 <= n <= SIZE_MAX → Filled n x = Returns v → wf v) ∧
  (∀ n v, 0 <= n <= SIZE_MAX → Sized n = Returns v → wf v) ∧
  (∀ init v, Z.of_nat (length init) <= SIZE_MAX →
             FromList init = Returns v → wf v) ∧
  (∀ other, wf other → wf (Move other).1 ∧ wf (Move other).2).
Proof.
  split; [unfold wf, SIZE_MAX; simpl; lia|].
  split; [|split; [|split]].
  - intros n x v Hn. rewrite Filled_spec by lia. intros [= <-].
    unfold wf. simpl. rewrite length_replicate. lia.
  - intros n v Hn. rewrite Sized_spec by lia. intros [= <-].
    unfold wf. simpl. rewrite length_replicate. lia.
  - intros init v Hn. rewrite FromList_spec. intros [= <-].
    unfold wf. simpl. lia.
  - intros other Hwf. split; [exact Hwf|].
    unfold wf, SIZE_MAX. simpl. lia.
Qed.
(** One append *)
Lemma PushBack_step v item :
  wf v → (size_ v = capacity_ v → capacity_ v * 2 <= SIZE_MAX) →
  ∃ v' old,
    PushBack_move v item = Returns (v', old) ∧
    size_ v' = size_ v + 1 ∧
    capacity_ v' = (if size_ v <? capacity_ v then capacity_ v
                    else if capacity_ v =? 0 then 1
                    else capacity_ v * 2) ∧
    items_ v' !! Z.to_nat (size_ v) = Some item ∧
    elements v' = elements v ++ [item] ∧
    wf v'.
Proof.
  intros Hwf Hdouble. pose proof Hwf as (Hs0 & Hsc & Hcl & Hmax).
  unfold PushBack_move.
  destruct (Z.ltb_spec (size_ v) (capacity_ v)) as [Hlt|Hge].
  - destruct (swap_slot_Z (items_ v) (size_ v) item) as (old & ->); [lia|].
    rewrite !bind_Returns, size_t_id by lia.
    eexists _, old. split; [done|]. simpl.
    split; [done|]. split; [done|]. split; [|split].
    + apply list_lookup_insert_eq. lia.
    + unfold elements. simpl.
      replace (Z.to_nat (size_ v + 1)) with (S (Z.to_nat (size_ v))) by lia.
      apply take_S_insert. lia.
    + unfold wf. simpl. rewrite length_insert. lia.
  - assert (size_ v = capacity_ v) as Heq by lia.
    specialize (Hdouble Heq).
    assert (grown_capacity v
            = if capacity_ v =? 0 then 1 else capacity_ v * 2) as ->.
    { unfold grown_capacity. destruct (capacity_ v =? 0); [done|].
      apply size_t_id. lia. }
    set (new_capacity := if capacity_ v =? 0 then 1 else capacity_ v * 2).
    assert (capacity_ v < new_capacity <= SIZE_MAX) as Hnew.
    { unfold new_capacity, SIZE_MAX in *.
      destruct (Z.eqb_spec (capacity_ v) 0); lia. }
    rewrite (Reserve_grow v new_capacity Hwf) by lia.
    rewrite !bind_Returns. simpl.
    pose proof (length_elements v Hwf) as Hlen.
    set (tail := replicate _ _).
    assert (length tail = Z.to_nat new_capacity - Z.to_nat (size_ v))%nat
      as Htail by apply length_replicate.
    destruct (swap_slot_Z (elements v ++ tail) (size_ v) item)
      as (old & ->); [rewrite length_app; lia|].
    rewrite !bind_Returns, size_t_id by (unfold SIZE_MAX in *; lia).
    eexists _, old. split; [done|]. simpl.
    split; [done|]. split; [done|]. split; [|split].
    + apply list_lookup_insert_eq. rewrite length_app. lia.
    + unfold elements at 1. simpl.
      replace (Z.to_nat (size_ v + 1)) with (S (Z.to_nat (size_ v))) by lia.
      rewrite take_S_insert by (rewrite length_app; lia).
      f_equal. apply take_app_length'. lia.
    + unfold wf. simpl. rewrite length_insert, length_app. lia.
Qed.

Lemma PushBack_move_all_spec (xs : list T) : ∀ v,
  wf v → size_ v + Z.of_nat (length xs) <= 2 ^ 63 →
  ∃ w, PushBack_move_all v xs = Returns w ∧
       size_ w = size_ v + Z.of_nat (length xs) ∧
       elements w = elements v ++ xs ∧
       wf w.
Proof.
  induction xs as [|x xs IH]; intros v Hwf Hn; simpl.
  - exists v. rewrite app_nil_r.
    split; [done|]. split; [lia|]. by split.
  - destruct (PushBack_step v x) as (v' & old & -> & Hs & _ & _ & He & Hwf').
    { done. }
    { unfold SIZE_MAX. simpl in Hn. lia. }
    rewrite !bind_Returns.
    destruct (IH v') as (w & -> & Hsw & Hew & Hwfw); [done|simpl in Hn; lia|].
    exists w. split; [done|]. split; [simpl; lia|].
    split; [|done]. by rewrite Hew, He, <- app_assoc.
Qed.
Lemma grow_if_full_spec v :
  wf v → (size_ v = capacity_ v → capacity_ v * 2 <= SIZE_MAX) →
  ∃ v1, grow_if_full v = Returns v1 ∧
        wf v1 ∧
        size_ v1 = size_ v ∧
        elements v1 = elements v ∧
        size_ v1 < capacity_ v1 ∧
        capacity_ v1 = (if size_ v <? capacity_ v then capacity_ v
                        else if capacity_ v =? 0 then 1
                        else capacity_ v * 2).
Proof.
  intros Hwf Hdouble. pose proof Hwf as (Hs0 & Hsc & Hcl & Hmax).
  unfold grow_if_full.
  destruct (Z.leb_spec (capacity_ v) (size_ v)) as [Hfull|Hroom];
    destruct (Z.ltb_spec (size_ v) (capacity_ v)) as [Hlt|Hge]; try lia.
  - assert (size_ v = capacity_ v) as Heq by lia.
    specialize (Hdouble Heq).
    assert (grown_capacity v
            = if capacity_ v =? 0 then 1 else capacity_ v * 2) as ->.
    { unfold grown_capacity. destruct (capacity_ v =? 0); [done|].
      apply size_t_id. lia. }
    set (new_capacity := if capacity_ v =? 0 then 1 else capacity_ v * 2).
    assert (capacity_ v < new_capacity <= SIZE_MAX) as Hnew.
    { unfold new_capacity, SIZE_MAX in *.
      destruct (Z.eqb_spec (capacity_ v) 0); lia. }
    rewrite (Reserve_grow v new_capacity Hwf) by lia.
    rewrite bind_Returns. simpl.
    eexists. split; [done|]. simpl. split; [|split; [|split; [|split]]].
    + apply wf_grown; [done|lia..].
    + done.
    + by apply elements_app_tail.
    + lia.
    + done.
  - exists v. split; [done|]. repeat split; done || lia.
Qed.

Lemma Insert_spec v (pos : Z) value :
  wf v → 0 <= pos <= size_ v →
  (size_ v = capacity_ v → capacity_ v * 2 <= SIZE_MAX) →
  ∃ v' old,
    Insert v pos value = Returns (v', pos) ∧
    Insert_move v pos value = Returns (v', pos, old) ∧
    size_ v' = size_ v + 1 ∧
    capacity_ v' = (if size_ v <? capacity_ v then capacity_ v
                    else if capacity_ v =? 0 then 1
                    else capacity_ v * 2) ∧
    elements v' = take (Z.to_nat pos) (elements v)
                  ++ value :: drop (Z.to_nat pos) (elements v) ∧
    items_ v' !! Z.to_nat pos = Some value ∧
    wf v'.
Proof.
  intros Hwf Hpos Hdouble.
  destruct (grow_if_full_spec v Hwf Hdouble)
    as (v1 & Hgrow & Hwf1 & Hs1 & He1 & Hroom & Hc1).
  pose proof Hwf1 as (Hs0 & Hsc & Hcl & Hmax).
  unfold Insert, Insert_move, begin, end_, assert.
  destruct (Z.leb_spec 0 pos); [|lia].
  destruct (Z.leb_spec pos (size_ v)); [|lia]. simpl.
  rewrite Hgrow, !bind_Returns.
  assert (size_t (pos - 0) = pos) as ->.
  { rewrite Z.sub_0_r. apply size_t_id. lia. }
  destruct (std_copy_backward_shift_Z false (items_ v1) pos (size_ v1))
    as (y1 & ->); [lia..|].
  destruct (std_copy_backward_shift_Z true (items_ v1) pos (size_ v1))
    as (y2 & ->); [lia..|].
  rewrite !bind_Returns.
  set (i := Z.to_nat pos). set (s := Z.to_nat (size_ v1)).
  set (b := items_ v1).
  assert (length (take i b) = i) as Hli.
  { rewrite length_take. unfold i, b. lia. }
  rewrite store_Z.
  2:{ rewrite length_app. simpl.
      rewrite Hli. unfold i. lia. }
  destruct (swap_slot_Z
              (take i b ++ y2 :: take (s - i) (drop i b) ++ drop (S s) b)
              pos value) as (old & ->).
  { rewrite length_app. simpl. rewrite Hli. unfold i. lia. }
  rewrite !bind_Returns. fold i.
  rewrite !insert_middle by done.
  rewrite size_t_id by lia.
  eexists _, old. split; [done|]. split; [done|]. simpl.
  split; [lia|]. split; [done|]. split; [|split].
  - unfold elements at 1. simpl. rewrite <- He1. unfold elements.
    fold s b. rewrite take_take, Nat.min_l by (unfold i, s; lia).
    replace (drop i (take s b)) with (take (s - i) (drop i b)).
    2:{ rewrite take_drop_commute. do 2 f_equal. unfold i, s. lia. }
    replace (take i b ++ value :: take (s - i) (drop i b) ++ drop (S s) b)
      with ((take i b ++ value :: take (s - i) (drop i b)) ++ drop (S s) b)
      by (by rewrite <- app_assoc).
    apply take_app_length'.
    rewrite length_app. simpl.
    rewrite Hli, length_take, length_drop. unfold i, s, b. lia.
  - rewrite lookup_app_r by lia. by rewrite Hli, Nat.sub_diag.
  - unfold wf. simpl. rewrite length_app. simpl.
    rewrite Hli, length_app, length_take, !length_drop.
    unfold i, s, b. lia.
Qed.

Lemma Erase_spec v (pos : Z) :
  wf v → 0 <= pos < size_ v →
  ∃ v', Erase v pos = Returns (v', pos) ∧
        size_ v' = size_ v - 1 ∧
        capacity_ v' = capacity_ v ∧
        elements v' = take (Z.to_nat pos) (elements v)
                      ++ drop (S (Z.to_nat pos)) (elements v) ∧
        (pos + 1 < size_ v →
         items_ v' !! Z.to_nat pos = items_ v !! Z.to_nat (pos + 1)) ∧
        (pos + 1 = size_ v → pos = end_ v') ∧
        wf v'.
Proof.
  intros Hwf Hpos. pose proof Hwf as (Hs0 & Hsc & Hcl & Hmax).
  unfold Erase, begin, end_, assert.
  destruct (Z.leb_spec 0 pos); [|lia].
  destruct (Z.leb_spec pos (size_ v)); [|lia]. simpl.
  assert (size_t (pos - 0) = pos) as ->.
  { rewrite Z.sub_0_r. apply size_t_id. lia. }
  destruct (std_copy_within_shift_Z true (items_ v) pos (size_ v))
    as (y & ->); [lia..|].
  rewrite bind_Returns, size_t_id by lia.
  set (i := Z.to_nat pos). set (s := Z.to_nat (size_ v)).
  set (b := items_ v).
  assert (length (take i b) = i) as Hli.
  { rewrite length_take. unfold i, b. lia. }
  assert (length (take (s - S i) (drop (S i) b)) = (s - S i)%nat) as Hlm.
  { rewrite length_take, length_drop. unfold i, s, b. lia. }
  eexists. split; [done|]. simpl.
  split; [done|]. split; [done|]. split; [|split; [|split]].
  - unfold elements. simpl. fold s b.
    rewrite take_take, Nat.min_l by (unfold i, s; lia).
    replace (drop (S i) (take s b)) with (take (s - S i) (drop (S i) b)).
    2:{ rewrite take_drop_commute. do 2 f_equal. unfold i, s. lia. }
    rewrite app_assoc. apply take_app_length'.
    rewrite length_app, Hli, Hlm. unfold i, s. lia.
  - intros Hnext. rewrite lookup_app_r by lia.
    rewrite Hli, Nat.sub_diag.
    rewrite lookup_app_l by (rewrite Hlm; unfold i, s; lia).
    rewrite lookup_take_lt by (unfold i, s; lia).
    rewrite lookup_drop. f_equal. unfold i. lia.
  - intros Hlast. simpl. lia.
  - unfold wf. simpl. rewrite !length_app. simpl.
    rewrite Hli, Hlm, length_drop. unfold i, s, b. lia.
Qed.
End VectorFacts.

(** * The claims *)
Section Claims.
Context {T : Type} `{!Element T}.
Import SimpleVector.
Implicit Types (v other a b : SimpleVector.t T) (x item value : T).

(** C3. [At(index)] throws [std::out_of_range] exactly when
    [index >= size] (also for an empty vector); for [index < size] it is
    the same access as [operator[]], and on a vector satisfying the
    invariant that access returns the element at [index]. *)
Theorem C3_At_checked_access v (index : Z) :
  (At v index = ThrowsOutOfRange ↔ GetSize v <= index) ∧
  (index < GetSize v → At v index = operator_index v index) ∧
  (wf v → 0 <= index < GetSize v →
   ∃ x, At v index = Returns x ∧ operator_index v index = Returns x ∧
        elements v !! Z.to_nat index = Some x).
Proof.
  unfold At, operator_index, GetSize.
  destruct (Z.leb_spec (size_ v) index) as [Hge|Hlt].
  - split; [done|]. split; intros; lia.
  - split; [|split].
    + split; [|lia]. unfold load.
      destruct (0 <=? index); [|done].
      by destruct (items_ v !! Z.to_nat index).
    + done.
    + intros Hwf [H0 _].
      destruct (load_in (items_ v) (Z.to_nat index)) as (x & Hx & Hload).
      { unfold wf in Hwf. lia. }
      rewrite Z2Nat.id in Hload by done.
      exists x. split; [done|]. split; [done|].
      unfold elements. rewrite lookup_take_lt by lia. done.
Qed.

(** C7. [Reserve(new_capacity)] with [new_capacity <= capacity] leaves
    the vector as it is; with a larger request the capacity becomes
    exactly [new_capacity], and the size and the live elements, in order,
    stay the same. *)
Theorem C7_Reserve_frame v (new_capacity : Z) :
  (new_capacity <= GetCapacity v → Reserve v new_capacity = Returns v) ∧
  (wf v → GetCapacity v < new_capacity → new_capacity <= SIZE_MAX →
   ∃ v', Reserve v new_capacity = Returns v' ∧
         GetCapacity v' = new_capacity ∧
         GetSize v' = GetSize v ∧
         elements v' = elements v ∧
         wf v').
Proof.
  unfold GetCapacity, GetSize. split; [apply Reserve_noop|].
  intros Hwf Hn Hmax. rewrite Reserve_grow by done.
  eexists. split; [done|]. simpl.
  split; [done|]. split; [done|]. split.
  - by apply elements_app_tail.
  - by apply wf_grown.
Qed.

(** C8. [Resize(new_size)]: shrinking only sets the size; growing within
    the capacity gives slots [size .. new_size) the default value;
    growing past the capacity moves to a block of
    [max(new_size, capacity * 2)] slots that holds the old elements
    followed by default values. *)
Theorem C8_Resize_cases v (new_size : Z) :
  (0 <= new_size <= GetSize v →
   ∃ v', Resize v new_size = Returns v' ∧
         GetSize v' = new_size ∧
         GetCapacity v' = GetCapacity v ∧
         items_ v' = items_ v ∧
         elements v' = take (Z.to_nat new_size) (elements v)) ∧
  (wf v → GetSize v < new_size <= GetCapacity v →
   ∃ v', Resize v new_size = Returns v' ∧
         GetSize v' = new_size ∧
         GetCapacity v' = GetCapacity v ∧
         elements v' = elements v
           ++ replicate (Z.to_nat (new_size - GetSize v)) default_value ∧
         wf v') ∧
  (wf v → GetCapacity v < new_size <= SIZE_MAX →
   GetCapacity v * 2 <= SIZE_MAX →
   ∃ v', Resize v new_size = Returns v' ∧
         GetSize v' = new_size ∧
         GetCapacity v' = Z.max new_size (GetCapacity v * 2) ∧
         items_ v' = elements v
           ++ replicate (Z.to_nat (GetCapacity v' - GetSize v))
                        default_value ∧
         elements v' = elements v
           ++ replicate (Z.to_nat (new_size - GetSize v)) default_value ∧
         wf v').
Proof.
  unfold GetSize, GetCapacity. split; [|split].
  - intros Hn. unfold Resize.
    destruct (Z.leb_spec new_size (size_ v)); [|lia].
    eexists. split; [done|]. simpl. repeat split.
    unfold elements. simpl. rewrite take_take. f_equal. lia.
  - intros Hwf Hn. unfold Resize.
    destruct (Z.leb_spec new_size (size_ v)); [lia|].
    destruct (Z.leb_spec new_size (capacity_ v)); [|lia].
    pose proof Hwf as (Hs0 & Hsc & Hcl & Hmax).
    rewrite std_generate_range by lia. rewrite bind_Returns.
    eexists. split; [done|]. simpl. split; [done|]. split; [done|]. split.
    + unfold elements. simpl. rewrite app_assoc.
      apply take_app_length'.
      rewrite length_app, length_take, length_replicate. lia.
    + unfold wf. simpl.
      rewrite !length_app, length_take, length_replicate, length_drop.
      lia.
  - intros Hwf Hn Hdouble. unfold Resize.
    destruct (Z.leb_spec new_size (size_ v));
      [unfold wf in Hwf; lia|].
    destruct (Z.leb_spec new_size (capacity_ v)); [lia|].
    pose proof Hwf as (Hs0 & Hsc & Hcl & Hmax).
    rewrite (size_t_id (capacity_ v * 2)) by lia.
    set (new_capacity := Z.max new_size (capacity_ v * 2)).
    destruct (std_copy_move_prefix (items_ v) (ArrayPtr_new new_capacity)
                (size_ v)) as (old & ->).
    { lia. }
    { unfold ArrayPtr_new. rewrite length_replicate. lia. }
    rewrite bind_Returns. unfold ArrayPtr_new. rewrite drop_replicate.
    fold (elements v). pose proof (length_elements v Hwf) as Hlen.
    rewrite std_generate_range;
      [|lia|rewrite length_app, length_replicate; lia].
    rewrite bind_Returns.
    rewrite take_app_length' by lia.
    rewrite drop_ge by (rewrite length_app, length_replicate; lia).
    rewrite app_nil_r.
    replace (Z.to_nat new_capacity - Z.to_nat (size_ v))%nat
      with (Z.to_nat (new_capacity - size_ v)) by lia.
    eexists. split; [done|]. simpl.
    split; [done|]. split; [done|]. split; [done|]. split.
    + unfold elements at 1. simpl.
      rewrite take_app_ge by lia. f_equal.
      rewrite take_replicate. f_equal. lia.
    + unfold wf. simpl. rewrite length_app, length_replicate.
      unfold SIZE_MAX in *. lia.
Qed.

(** C10. [a.swap(b)] exchanges block, size and capacity of the two
    vectors, so a second swap of the same pair restores both. *)
Theorem C10_swap_exchanges a b :
  swap a b = (b, a) ∧
  GetSize (swap a b).1 = GetSize b ∧
  GetCapacity (swap a b).1 = GetCapacity b ∧
  elements (swap a b).1 = elements b ∧
  GetSize (swap a b).2 = GetSize a ∧
  GetCapacity (swap a b).2 = GetCapacity a ∧
  elements (swap a b).2 = elements a ∧
  swap (swap a b).1 (swap a b).2 = (a, b).
Proof. destruct a, b. repeat split. Qed.
(** C4. [PushBack(Type&&)]: with room left the element goes to slot
    [size] and the capacity stays; otherwise the capacity first becomes 1
    (from 0) or twice its value; the size grows by one.  So [n] such
    appends to an empty vector give size [n] and the elements in insertion
    order.  [PushBack(const Type&)] cannot be instantiated, so nothing is
    stated of it. *)
Theorem C4_PushBack_move_appends :
  (∀ v item,
     wf v →
     (GetSize v = GetCapacity v → GetCapacity v * 2 <= SIZE_MAX) →
     ∃ v' old,
       PushBack_move v item = Returns (v', old) ∧
       GetSize v' = GetSize v + 1 ∧
       GetCapacity v' = (if GetSize v <? GetCapacity v then GetCapacity v
                         else if GetCapacity v =? 0 then 1
                         else GetCapacity v * 2) ∧
       items_ v' !! Z.to_nat (GetSize v) = Some item ∧
       elements v' = elements v ++ [item] ∧
       wf v') ∧
  (∀ xs : list T,
     Z.of_nat (length xs) <= 2 ^ 63 →
     ∃ w, PushBack_move_all Default xs = Returns w ∧
          GetSize w = Z.of_nat (length xs) ∧
          elements w = xs).
Proof.
  split; [apply PushBack_step|].
  intros xs Hn.
  destruct (PushBack_move_all_spec xs Default)
    as (w & Hm & Hs & He & _).
  { exact (proj1 constructors_wf). }
  { simpl. lia. }
  exists w. split; [done|]. split; [apply Hs|apply He].
Qed.
(** C5. [Insert(pos, value)] with [pos] in [begin, end], copying or
    moving: a full vector first grows to capacity 1 (from 0) or to twice
    its capacity; the elements from [pos] on move one slot towards the
    tail, [value] takes the freed slot, the size grows by one, and the
    returned iterator designates the inserted element. *)
Theorem C5_Insert_shifts_tail v (pos : Z) value :
  wf v → begin v <= pos <= end_ v →
  (GetSize v = GetCapacity v → GetCapacity v * 2 <= SIZE_MAX) →
  ∃ v' it old,
    Insert v pos value = Returns (v', it) ∧
    Insert_move v pos value = Returns (v', it, old) ∧
    GetSize v' = GetSize v + 1 ∧
    GetCapacity v' = (if GetSize v <? GetCapacity v then GetCapacity v
                      else if GetCapacity v =? 0 then 1
                      else GetCapacity v * 2) ∧
    elements v' = take (Z.to_nat pos) (elements v)
                  ++ value :: drop (Z.to_nat pos) (elements v) ∧
    it = pos ∧
    items_ v' !! Z.to_nat it = Some value ∧
    wf v'.
Proof.
  unfold begin, end_, GetSize, GetCapacity. intros Hwf Hpos Hdouble.
  destruct (Insert_spec v pos value Hwf Hpos Hdouble)
    as (v' & old & Hc & Hm & Hs & Hcap & He & Hit & Hwf').
  exists v', pos, old. repeat (split; [done|]). done.
Qed.

(** C6. [Erase(pos)] with [pos] in [begin, end): the elements after
    [pos] move one slot towards the head in order, the size drops by
    one, the capacity stays, and the returned iterator designates the
    slot now holding the element that followed the erased one, or is
    [end()] when the last element was erased. *)
Theorem C6_Erase_shifts_head v (pos : Z) :
  wf v → begin v <= pos < end_ v →
  ∃ v' it,
    Erase v pos = Returns (v', it) ∧
    GetSize v' = GetSize v - 1 ∧
    GetCapacity v' = GetCapacity v ∧
    elements v' = take (Z.to_nat pos) (elements v)
                  ++ drop (S (Z.to_nat pos)) (elements v) ∧
    it = pos ∧
    (pos + 1 < end_ v →
     items_ v' !! Z.to_nat it = items_ v !! Z.to_nat (pos + 1)) ∧
    (pos + 1 = end_ v → it = end_ v') ∧
    wf v'.
Proof.
  unfold begin, GetSize, GetCapacity. intros Hwf Hpos.
  destruct (Erase_spec v pos Hwf Hpos)
    as (v' & He & Hs & Hcap & Hel & Hnext & Hend & Hwf').
  exists v', pos. repeat (split; [done|]). done.
Qed.

(** C9. [a == b] holds exactly when the sizes are equal and the elements
    are equal position by position; [a < b] exactly when [a] precedes
    [b] lexicographically (for an element type whose equality is the
    equivalence of its order); [!=], [>], [<=] and [>=] are the
    combinations of [<] and [==] the source defines them as. *)
Theorem C9_comparisons a b :
  wf a → wf b →
  ∃ e l,
    operator_eq a b = Returns e ∧
    (e = true ↔
     GetSize a = GetSize b ∧ elementwise_equal (elements a) (elements b)) ∧
    operator_lt a b = Returns l ∧
    (consistent_order (T:=T) →
     l = true ↔ lex_precedes (elements a) (elements b)) ∧
    operator_ne a b = Returns (negb e) ∧
    operator_gt a b = Returns (negb l && negb e) ∧
    operator_le a b = Returns (l || e) ∧
    operator_ge a b = Returns (negb l).
Proof.
  intros (Ha0 & Hasc & Hacl & _) (Hb0 & Hbsc & Hbcl & _).
  unfold operator_le, operator_ge, operator_gt, operator_ne.
  assert (∃ e, operator_eq a b = Returns e ∧
               (e = true ↔ GetSize a = GetSize b ∧
                           elementwise_equal (elements a) (elements b)))
    as (e & He & Heq).
  { unfold operator_eq, std_equal, begin, end_, GetSize.
    destruct (Z.eqb_spec (size_ a) (size_ b)) as [Hsz|Hsz].
    - destruct (Z.ltb_spec (size_ a) 0); [lia|].
      destruct (Z.ltb_spec (size_ b) 0); [lia|]. simpl.
      rewrite Hsz, Z.eqb_refl.
      destruct (equal_loop_spec (Z.to_nat (size_ b - 0))
                  (items_ a) 0 (items_ b) 0) as (r & Hr & Hiff); [lia..|].
      exists r. split; [exact Hr|]. rewrite Hiff. unfold elements.
      rewrite Hsz, Z.sub_0_r. simpl. tauto.
    - exists false. split; [done|]. split; [done|]. tauto. }
  assert (∃ l, operator_lt a b = Returns l ∧
               (consistent_order (T:=T) →
                l = true ↔ lex_precedes (elements a) (elements b)))
    as (l & Hl & Hlt).
  { unfold operator_lt, std_lexicographical_compare, begin, end_.
    destruct (Z.ltb_spec (size_ a) 0); [lia|].
    destruct (Z.ltb_spec (size_ b) 0); [lia|]. simpl.
    rewrite !Z.sub_0_r.
    destruct (lexicographical_loop_spec (Z.to_nat (size_ a))
                (Z.to_nat (size_ b)) (items_ a) 0 (items_ b) 0)
      as (r & Hr & Hiff); [lia..|].
    exists r. split; [exact Hr|]. exact Hiff. }
  exists e, l. rewrite He, Hl, !bind_Returns. simpl.
  split; [done|]. split; [done|]. split; [done|]. split; [done|].
  split; [done|].
  by destruct l, e.
Qed.
End Claims.

(** * The two constructors that break the invariant *)
Section BrokenInvariant.
Import SimpleVector.

(** C1. The copy constructor gives the copy the size and the elements of
    the source, in order, in a block of exactly that many slots, but it
    sets the capacity field to the capacity of the source instead of the
    source's size: the copy of a vector of size 3 and capacity 10 has
    capacity field 10 over a block of 3 slots. *)
Theorem C1_Copy_takes_source_capacity :
  ∃ src c,
    list_123_reserved_10 = Returns src ∧ wf src ∧
    Copy src = Returns c ∧
    GetSize c = GetSize src ∧
    elements c = elements src ∧
    GetSize src = 3 ∧
    GetCapacity src = 10 ∧
    length (items_ c) = 3%nat ∧
    GetCapacity c = 10.
Proof.
  eexists _, _. split; [vm_compute; reflexivity|].
  split; [unfold wf, SIZE_MAX; simpl; lia|].
  split; [vm_compute; reflexivity|].
  repeat split.
Qed.

(** C2. Not every constructed vector satisfies the invariant: the vector
    built from [Reserve(5)] has capacity field 5 and no block, and the
    copy of a vector of size 3 and capacity 10 has capacity field 10 over
    a block of 3 slots.  On both, the next [PushBack] (of an rvalue, the
    moving overload) writes outside the owned block. *)
Theorem C2_capacity_field_exceeds_block :
  (¬ wf reserved_5 ∧
   GetCapacity reserved_5 = 5 ∧ length (items_ reserved_5) = 0%nat ∧
   PushBack_move reserved_5 1 = Undefined) ∧
  (∃ src c,
     list_123_reserved_10 = Returns src ∧ wf src ∧
     Copy src = Returns c ∧
     ¬ wf c ∧
     PushBack_move c 4 = Undefined).
Proof.
  split.
  - split; [|repeat split]. unfold wf. simpl. lia.
  - eexists _, _. split; [vm_compute; reflexivity|].
    split; [unfold wf, SIZE_MAX; simpl; lia|].
    split; [vm_compute; reflexivity|].
    split; [|reflexivity]. unfold wf. simpl. lia.
Qed.
End BrokenInvariant.

(** * The claims at concrete vectors *)

Lemma Z_consistent_order : consistent_order (T:=Z).
Proof.
  intros x y. simpl. rewrite Z.eqb_eq, !Z.ltb_ge. lia.
Qed.

Ltac wf_now := unfold SimpleVector.wf, vec, SIZE_MAX; simpl; lia.

Ltac bounds_now :=
  unfold SimpleVector.begin, SimpleVector.end_, SimpleVector.GetSize,
    SimpleVector.GetCapacity, vec, SIZE_MAX;
  simpl; lia.

(** C3 on the vector {1, 2, 3} *)
Lemma C3_At_checked_access_witness :
  SimpleVector.At (vec [1; 2; 3] 3 3) 3 = ThrowsOutOfRange ∧
  SimpleVector.At (vec [1; 2; 3] 3 3) 1
  = SimpleVector.operator_index (vec [1; 2; 3] 3 3) 1 ∧
  ∃ x, SimpleVector.At (vec [1; 2; 3] 3 3) 1 = Returns x ∧
       SimpleVector.operator_index (vec [1; 2; 3] 3 3) 1 = Returns x ∧
       SimpleVector.elements (vec [1; 2; 3] 3 3) !! Z.to_nat 1 = Some x.
Proof.
  split; [|split].
  - apply (C3_At_checked_access (vec [1; 2; 3] 3 3) 3). bounds_now.
  - apply (C3_At_checked_access (vec [1; 2; 3] 3 3) 1). bounds_now.
  - apply (C3_At_checked_access (vec [1; 2; 3] 3 3) 1); [wf_now|bounds_now].
Defined.

(** C4: an append to the full vector {1, 2, 3}, and three appends to an
    empty vector *)
Lemma C4_PushBack_move_appends_witness :
  (∃ v' old,
     SimpleVector.PushBack_move (vec [1; 2; 3] 3 3) 4 = Returns (v', old) ∧
     SimpleVector.GetSize v' = 4 ∧
     SimpleVector.GetCapacity v' = 6 ∧
     SimpleVector.elements v' = [1; 2; 3; 4]) ∧
  (∃ w, PushBack_move_all SimpleVector.Default [7; 8; 9] = Returns w ∧
        SimpleVector.GetSize w = 3 ∧
        SimpleVector.elements w = [7; 8; 9]).
Proof.
  split.
  - destruct (proj1 C4_PushBack_move_appends (vec [1; 2; 3] 3 3) 4)
      as (v' & old & Hm & Hs & Hcap & _ & He & _);
      [wf_now|bounds_now|].
    exists v', old. repeat (split; [assumption|]). exact He.
  - apply (proj2 C4_PushBack_move_appends [7; 8; 9]). bounds_now.
Defined.

(** C5: [Insert(begin(), 0)] on the full vector {1, 3, 4} *)
Lemma C5_Insert_shifts_tail_witness :
  ∃ v' it old,
    SimpleVector.Insert (vec [1; 3; 4] 3 3) 0 0 = Returns (v', it) ∧
    SimpleVector.Insert_move (vec [1; 3; 4] 3 3) 0 0 = Returns (v', it, old) ∧
    SimpleVector.GetSize v' = 4 ∧
    SimpleVector.GetCapacity v' = 6 ∧
    SimpleVector.elements v' = [0; 1; 3; 4] ∧
    it = 0 ∧
    SimpleVector.items_ v' !! Z.to_nat it = Some 0 ∧
    SimpleVector.wf v'.
Proof.
  apply (C5_Insert_shifts_tail (vec [1; 3; 4] 3 3) 0 0);
    [wf_now|bounds_now|bounds_now].
Defined.

(** C6: [Erase(begin() + 1)] on {1, 2, 3, 4} *)
Lemma C6_Erase_shifts_head_witness :
  ∃ v' it,
    SimpleVector.Erase (vec [1; 2; 3; 4] 4 4) 1 = Returns (v', it) ∧
    SimpleVector.GetSize v' = 3 ∧
    SimpleVector.GetCapacity v' = 4 ∧
    SimpleVector.elements v' = [1; 3; 4] ∧
    it = 1.
Proof.
  destruct (C6_Erase_shifts_head (vec [1; 2; 3; 4] 4 4) 1)
    as (v' & it & He & Hs & Hc & Hel & Hit & _); [wf_now|bounds_now|].
  exists v', it. repeat (split; [assumption|]). exact Hit.
Defined.

(** C7: [Reserve(5)] and [Reserve(10)] on {0, 1, 3, 4} with capacity 6 *)
Lemma C7_Reserve_frame_witness :
  SimpleVector.Reserve (vec [0; 1; 3; 4; 0; 0] 4 6) 5
  = Returns (vec [0; 1; 3; 4; 0; 0] 4 6) ∧
  ∃ v', SimpleVector.Reserve (vec [0; 1; 3; 4; 0; 0] 4 6) 10 = Returns v' ∧
        SimpleVector.GetCapacity v' = 10 ∧
        SimpleVector.GetSize v' = 4 ∧
        SimpleVector.elements v' = [0; 1; 3; 4] ∧
        SimpleVector.wf v'.
Proof.
  split.
  - apply (C7_Reserve_frame (vec [0; 1; 3; 4; 0; 0] 4 6) 5). bounds_now.
  - apply (C7_Reserve_frame (vec [0; 1; 3; 4; 0; 0] 4 6) 10);
      [wf_now|bounds_now|bounds_now].
Defined.

(** C8: [Resize] to 2, 4 and 5 on {5, 6, 7} with capacity 4 *)
Lemma C8_Resize_cases_witness :
  (∃ v', SimpleVector.Resize (vec [5; 6; 7; 8] 3 4) 2 = Returns v' ∧
         SimpleVector.GetSize v' = 2 ∧
         SimpleVector.GetCapacity v' = 4 ∧
         SimpleVector.items_ v' = [5; 6; 7; 8] ∧
         SimpleVector.elements v' = [5; 6]) ∧
  (∃ v', SimpleVector.Resize (vec [5; 6; 7; 8] 3 4) 4 = Returns v' ∧
         SimpleVector.GetSize v' = 4 ∧
         SimpleVector.GetCapacity v' = 4 ∧
         SimpleVector.elements v' = [5; 6; 7; 0] ∧
         SimpleVector.wf v') ∧
  (∃ v', SimpleVector.Resize (vec [5; 6; 7; 8] 3 4) 5 = Returns v' ∧
         SimpleVector.GetSize v' = 5 ∧
         SimpleVector.GetCapacity v' = 8 ∧
         SimpleVector.items_ v' = [5; 6; 7; 0; 0; 0; 0; 0] ∧
         SimpleVector.elements v' = [5; 6; 7; 0; 0] ∧
         SimpleVector.wf v').
Proof.
  split; [|split].
  - refine (proj1 (C8_Resize_cases (vec [5; 6; 7; 8] 3 4) 2) _).
    bounds_now.
  - refine (proj1 (proj2 (C8_Resize_cases (vec [5; 6; 7; 8] 3 4) 4)) _ _);
      [wf_now|bounds_now].
  - destruct (proj2 (proj2 (C8_Resize_cases (vec [5; 6; 7; 8] 3 4) 5)))
      as (v' & Hr & Hs & Hc & Hi & He & Hwf);
      [wf_now|bounds_now|bounds_now|].
    rewrite Hc in Hi. exists v'.
    split; [exact Hr|]. split; [exact Hs|]. split; [exact Hc|].
    split; [exact Hi|]. split; [exact He|exact Hwf].
Defined.

(** C9: {1, 2, 3} against {1, 2, 4} *)
Lemma C9_comparisons_witness :
  ∃ e l,
    operator_eq (vec [1; 2; 3] 3 3) (vec [1; 2; 4; 9] 3 4) = Returns e ∧
    (e = true ↔
     3 = 3 ∧ elementwise_equal [1; 2; 3] [1; 2; 4]) ∧
    operator_lt (vec [1; 2; 3] 3 3) (vec [1; 2; 4; 9] 3 4) = Returns l ∧
    (l = true ↔ lex_precedes [1; 2; 3] [1; 2; 4]) ∧
    operator_ne (vec [1; 2; 3] 3 3) (vec [1; 2; 4; 9] 3 4)
    = Returns (negb e) ∧
    operator_gt (vec [1; 2; 3] 3 3) (vec [1; 2; 4; 9] 3 4)
    = Returns (negb l && negb e) ∧
    operator_le (vec [1; 2; 3] 3 3) (vec [1; 2; 4; 9] 3 4)
    = Returns (l || e) ∧
    operator_ge (vec [1; 2; 3] 3 3) (vec [1; 2; 4; 9] 3 4)
    = Returns (negb l).
Proof.
  destruct (C9_comparisons (vec [1; 2; 3] 3 3) (vec [1; 2; 4; 9] 3 4))
    as (e & l & He & Heq & Hl & Hlt & Hne & Hgt & Hle & Hge);
    [wf_now|wf_now|].
  exists e, l. split; [exact He|]. split; [exact Heq|].
  split; [exact Hl|]. split; [exact (Hlt Z_consistent_order)|].
  split; [exact Hne|]. split; [exact Hgt|]. split; [exact Hle|exact Hge].
Defined.

(** * Further properties of the methods *)

(** Closed forms of [Resize] and of the comparisons *)
Section MoreFacts.
Context {T : Type} `{!Element T}.
Import SimpleVector.
Implicit Types (v other a b : SimpleVector.t T) (x item value : T).

Lemma Resize_shrink v (n : Z) :
  n <= size_ v →
  Resize v n = Returns {| items_ := items_ v; size_ := n;
                          capacity_ := capacity_ v |}.
Proof.
  intros Hn. unfold Resize.
  destruct (Z.leb_spec n (size_ v)); [done|lia].
Qed.

Lemma Resize_within v (n : Z) :
  wf v → size_ v < n <= capacity_ v →
  Resize v n
  = Returns {| items_ := elements v
                 ++ replicate (Z.to_nat (n - size_ v)) default_value
                 ++ drop (Z.to_nat n) (items_ v);
               size_ := n;
               capacity_ := capacity_ v |}.
Proof.
  intros (Hs0 & Hsc & Hcl & Hmax) Hn. unfold Resize.
  destruct (Z.leb_spec n (size_ v)); [lia|].
  destruct (Z.leb_spec n (capacity_ v)); [|lia].
  rewrite std_generate_range by lia. by rewrite bind_Returns.
Qed.

Lemma Resize_grow v (n : Z) :
  wf v → capacity_ v < n <= SIZE_MAX → capacity_ v * 2 <= SIZE_MAX →
  Resize v n
  = Returns {| items_ := elements v
                 ++ replicate (Z.to_nat (Z.max n (capacity_ v * 2) - size_ v))
                              default_value;
               size_ := n;
               capacity_ := Z.max n (capacity_ v * 2) |}.
Proof.
  intros Hwf Hn Hdouble. pose proof Hwf as (Hs0 & Hsc & Hcl & Hmax).
  unfold Resize.
  destruct (Z.leb_spec n (size_ v)); [lia|].
  destruct (Z.leb_spec n (capacity_ v)); [lia|].
  rewrite (size_t_id (capacity_ v * 2)) by lia.
  set (new_capacity := Z.max n (capacity_ v * 2)).
  destruct (std_copy_move_prefix (items_ v) (ArrayPtr_new new_capacity)
              (size_ v)) as (old & ->).
  { lia. }
  { unfold ArrayPtr_new. rewrite length_replicate. lia. }
  rewrite bind_Returns. unfold ArrayPtr_new. rewrite drop_replicate.
  fold (elements v). pose proof (length_elements v Hwf) as Hlen.
  rewrite std_generate_range;
    [|lia|rewrite length_app, length_replicate; lia].
  rewrite bind_Returns, take_app_length' by lia.
  rewrite drop_ge by (rewrite length_app, length_replicate; lia).
  rewrite app_nil_r. do 4 f_equal; lia.
Qed.

Lemma operator_eq_spec a b :
  0 <= size_ a <= Z.of_nat (length (items_ a)) →
  0 <= size_ b <= Z.of_nat (length (items_ b)) →
  ∃ e, operator_eq a b = Returns e ∧
       (e = true ↔
        size_ a = size_ b ∧ elementwise_equal (elements a) (elements b)).
Proof.
  intros Ha Hb. unfold operator_eq, std_equal, begin, end_, GetSize.
  destruct (Z.eqb_spec (size_ a) (size_ b)) as [Hsz|Hsz].
  - destruct (Z.ltb_spec (size_ a) 0); [lia|].
    destruct (Z.ltb_spec (size_ b) 0); [lia|]. simpl.
    rewrite Hsz, Z.eqb_refl.
    destruct (equal_loop_spec (Z.to_nat (size_ b - 0))
                (items_ a) 0 (items_ b) 0) as (r & Hr & Hiff); [lia..|].
    exists r. split; [exact Hr|]. rewrite Hiff. unfold elements.
    rewrite Hsz, Z.sub_0_r. simpl. tauto.
  - exists false. split; [done|]. split; [done|]. tauto.
Qed.

Lemma operator_lt_spec a b :
  0 <= size_ a <= Z.of_nat (length (items_ a)) →
  0 <= size_ b <= Z.of_nat (length (items_ b)) →
  ∃ l, operator_lt a b = Returns l ∧
       (consistent_order (T:=T) →
        l = true ↔ lex_precedes (elements a) (elements b)).
Proof.
  intros Ha Hb.
  unfold operator_lt, std_lexicographical_compare, begin, end_.
  destruct (Z.ltb_spec (size_ a) 0); [lia|].
  destruct (Z.ltb_spec (size_ b) 0); [lia|]. simpl.
  rewrite !Z.sub_0_r.
  destruct (lexicographical_loop_spec (Z.to_nat (size_ a))
              (Z.to_nat (size_ b)) (items_ a) 0 (items_ b) 0)
    as (r & Hr & Hiff); [lia..|].
  exists r. split; [exact Hr|exact Hiff].
Qed.

Lemma derived_operators a b (e l : bool) :
  operator_eq a b = Returns e → operator_lt a b = Returns l →
  operator_ne a b = Returns (negb e) ∧
  operator_gt a b = Returns (negb l && negb e) ∧
  operator_le a b = Returns (l || e) ∧
  operator_ge a b = Returns (negb l).
Proof.
  intros He Hl.
  unfold operator_le, operator_ge, operator_gt, operator_ne.
  rewrite He, Hl, !bind_Returns. simpl.
  split; [done|]. by destruct l, e.
Qed.

Lemma elementwise_equal_refl (la : list T) :
  (∀ x, op_eq x x = true) → elementwise_equal la la.
Proof.
  intros Hrefl. unfold elementwise_equal.
  induction la; constructor; auto.
Qed.

Lemma lex_precedes_not_equal (la lb : list T) :
  consistent_order (T:=T) →
  lex_precedes la lb → ¬ elementwise_equal la lb.
Proof.
  intros Hord Hlex. unfold elementwise_equal.
  induction Hlex as [y lb|x la y lb Hxy|x la y lb Hxy Hlex IH];
    intros Hall; inversion Hall; subst.
  - match goal with Heq : op_eq x y = true |- _ =>
      apply Hord in Heq; destruct Heq; congruence end.
  - by apply IH.
Qed.

Lemma lex_precedes_flip (la : list T) : ∀ lb,
  consistent_order (T:=T) →
  (∀ x y : T, op_lt x y = true → op_lt y x = false) →
  lex_precedes lb la ↔ ¬ lex_precedes la lb ∧ ¬ elementwise_equal la lb.
Proof.
  unfold elementwise_equal.
  induction la as [|x la IH]; intros lb Hord Hasym.
  - split.
    + intros Hlex. inversion Hlex.
    + intros [Hnlex Hneq]. destruct lb as [|y lb].
      * destruct Hneq. constructor.
      * destruct Hnlex. constructor.
  - destruct lb as [|y lb].
    + split; [|intros _; constructor].
      intros _. split; intros Hbad; inversion Hbad.
    + destruct (op_lt x y) eqn:Hxy.
      { split.
        - intros Hlex. inversion Hlex; subst.
          + apply Hasym in Hxy. congruence.
          + match goal with Heq : op_eq y x = true |- _ =>
              apply Hord in Heq; destruct Heq; congruence end.
        - intros [Hnlex _]. destruct Hnlex. by apply lex_head. }
      destruct (op_lt y x) eqn:Hyx.
      { split; [|intros _; by apply lex_head].
        intros _. split; intros Hbad; inversion Hbad; subst;
          try congruence;
          match goal with Heq : op_eq x y = true |- _ =>
            apply Hord in Heq; destruct Heq; congruence end. }
      assert (op_eq x y = true) as Hexy by (by apply Hord).
      assert (op_eq y x = true) as Heyx by (by apply Hord).
      specialize (IH lb Hord Hasym). split.
      * intros Hlex. inversion Hlex; subst; [congruence|].
        match goal with Htl : lex_precedes lb la |- _ =>
          apply IH in Htl as [Hn1 Hn2] end.
        split; intros Hbad; inversion Hbad; subst;
          try congruence; auto.
      * intros [Hnlex Hneq]. apply lex_tail; [done|]. apply IH. split.
        -- intros Htl. apply Hnlex. by apply lex_tail.
        -- intros Htl. apply Hneq. by constructor.
Qed.
End MoreFacts.

Section Extras.
Context {T : Type} `{!Element T}.
Import SimpleVector.
Implicit Types (v other rhs a b : SimpleVector.t T) (x item value : T).

(** X1. [SimpleVector(size)] and [SimpleVector(size, value)] build a vector
    of exactly [size] elements, all equal to [Type()] respectively
    [value], with capacity [size]; it satisfies the invariant. *)
Theorem X1_sized_constructors (n : Z) value :
  0 <= n <= SIZE_MAX →
  ∃ v d,
    Filled n value = Returns v ∧
    Sized n = Returns d ∧
    GetSize v = n ∧ GetCapacity v = n ∧
    elements v = replicate (Z.to_nat n) value ∧ wf v ∧
    GetSize d = n ∧ GetCapacity d = n ∧
    elements d = replicate (Z.to_nat n) default_value ∧ wf d.
Proof.
  intros Hn. rewrite Filled_spec, Sized_spec by lia.
  eexists _, _. split; [done|]. split; [done|].
  unfold elements, wf, GetSize, GetCapacity. simpl.
  rewrite !take_ge by (rewrite length_replicate; lia).
  rewrite !length_replicate. repeat split; lia.
Qed.

(** X2. The vector built from an initializer list has the list's length as
    size and capacity and its values as elements: [At(i)] returns the
    [i]-th value of the list and throws at [i = size]. *)
Theorem X2_FromList_elements (init : list T) :
  Z.of_nat (length init) <= SIZE_MAX →
  ∃ v, FromList init = Returns v ∧
       GetSize v = Z.of_nat (length init) ∧
       GetCapacity v = Z.of_nat (length init) ∧
       elements v = init ∧
       wf v ∧
       (∀ (i : nat) x, init !! i = Some x → At v (Z.of_nat i) = Returns x) ∧
       At v (Z.of_nat (length init)) = ThrowsOutOfRange.
Proof.
  intros Hn. rewrite FromList_spec. eexists. split; [done|].
  unfold elements, wf, GetSize, GetCapacity, At. simpl.
  split; [done|]. split; [done|].
  split; [by rewrite Nat2Z.id, take_ge|].
  split; [lia|]. split.
  - intros i x Hx. pose proof (lookup_lt_Some _ _ _ Hx).
    destruct (Z.leb_spec (Z.of_nat (length init)) (Z.of_nat i)); [lia|].
    by apply load_nat.
  - by rewrite Z.leb_refl.
Qed.

(** X3. Both assignment operators make the target a copy of [rhs]: its
    size and elements are those of [rhs], whatever the target held, its
    block has exactly [size] slots and its capacity field is that of
    [rhs].  The moving overload copies as well and leaves [rhs] as it
    was. *)
Theorem X3_assignment_copies v rhs :
  wf rhs →
  ∃ c, operator_assign v rhs = Returns c ∧
       operator_assign_move v rhs = Returns (c, rhs) ∧
       GetSize c = GetSize rhs ∧
       elements c = elements rhs ∧
       items_ c = elements rhs ∧
       GetCapacity c = GetCapacity rhs.
Proof.
  intros Hwf. unfold operator_assign, operator_assign_move.
  rewrite Copy_spec by done. rewrite !bind_Returns. simpl.
  eexists. split; [done|]. split; [done|].
  unfold elements, GetSize, GetCapacity. simpl.
  split; [done|]. split; [|done]. by rewrite take_take, Nat.min_id.
Qed.

(** X4. [Clear()] sets the size to 0 and keeps block and capacity; a
    following [Resize(n)] within the capacity yields [n] default values in
    the same block, not the old elements. *)
Theorem X4_Clear_keeps_capacity v (n : Z) :
  wf v → 0 <= n <= GetCapacity v →
  ∃ c r, Clear v = Returns c ∧
         GetSize c = 0 ∧ IsEmpty c = true ∧
         GetCapacity c = GetCapacity v ∧
         items_ c = items_ v ∧
         wf c ∧
         Resize c n = Returns r ∧
         GetCapacity r = GetCapacity v ∧
         elements r = replicate (Z.to_nat n) default_value.
Proof.
  unfold GetSize, GetCapacity, IsEmpty, Clear.
  intros Hwf Hn. pose proof Hwf as (Hs0 & Hsc & Hcl & Hmax).
  rewrite Resize_shrink by lia.
  set (c := {| items_ := items_ v; size_ := 0; capacity_ := capacity_ v |}).
  assert (wf c) as Hwfc by (unfold wf, c; simpl; lia).
  exists c. destruct (decide (n = 0)) as [->|Hn0].
  - rewrite (Resize_shrink c 0) by (simpl; lia).
    eexists. repeat (split; [done|]). done.
  - rewrite (Resize_within c n Hwfc) by (simpl; lia).
    eexists. repeat (split; [done|]).
    unfold elements. simpl. rewrite Z.sub_0_r.
    apply take_app_length'. rewrite length_replicate. lia.
Qed.

(** X5. [PopBack()] on a non-empty vector drops the last element and
    nothing else: size minus one, same capacity, the remaining elements in
    order. *)
Theorem X5_PopBack_drops_last v :
  wf v → 0 < GetSize v →
  GetSize (PopBack v) = GetSize v - 1 ∧
  GetCapacity (PopBack v) = GetCapacity v ∧
  (∃ x, elements v = elements (PopBack v) ++ [x]) ∧
  wf (PopBack v).
Proof.
  unfold GetSize, GetCapacity.
  intros (Hs0 & Hsc & Hcl & Hmax) Hpos.
  unfold PopBack, elements, wf. simpl.
  rewrite size_t_id by lia.
  split; [done|]. split; [done|]. split; [|lia].
  destruct (lookup_lt_is_Some_2 (items_ v) (Z.to_nat (size_ v - 1)))
    as [x Hx]; [lia|].
  exists x. rewrite <- (take_S_r _ _ _ Hx). f_equal. lia.
Qed.

(** X6. The moving [PushBack] followed by [PopBack] gives back the size
    and the elements the vector had (the capacity may have grown). *)
Theorem X6_PushBack_PopBack v item :
  wf v →
  (GetSize v = GetCapacity v → GetCapacity v * 2 <= SIZE_MAX) →
  ∃ v' old,
    PushBack_move v item = Returns (v', old) ∧
    GetSize (PopBack v') = GetSize v ∧
    elements (PopBack v') = elements v ∧
    GetCapacity v <= GetCapacity (PopBack v') ∧
    wf (PopBack v').
Proof.
  unfold GetSize, GetCapacity. intros Hwf Hdouble.
  pose proof Hwf as (Hs0 & Hsc & Hcl & Hmax).
  destruct (PushBack_step v item Hwf Hdouble)
    as (v' & old & Hm & Hs & Hcap & _ & He & Hwf').
  pose proof Hwf' as (Hs0' & Hsc' & Hcl' & Hmax').
  pose proof (length_elements v Hwf) as Hlen.
  exists v', old. split; [done|].
  unfold PopBack, elements, wf. simpl.
  rewrite size_t_id by lia.
  replace (size_ v' - 1) with (size_ v) by lia.
  split; [done|]. split; [|split; [|lia]].
  - transitivity (take (Z.to_nat (size_ v)) (elements v')).
    + unfold elements. rewrite take_take. f_equal. lia.
    + rewrite He. apply take_app_length'. unfold elements in Hlen. lia.
  - rewrite Hcap. destruct (size_ v <? capacity_ v); [lia|].
    destruct (Z.eqb_spec (capacity_ v) 0); lia.
Qed.

(** X7. [PopBack()] on an empty vector is not checked: the size wraps
    around to [2^64 - 1], after which [At] rejects no index below that and
    reads whatever [operator[]] would, outside the block included. *)
Theorem X7_PopBack_empty_wraps v :
  GetSize v = 0 →
  GetSize (PopBack v) = SIZE_MAX ∧
  IsEmpty (PopBack v) = false ∧
  ∀ i, 0 <= i < SIZE_MAX →
       At (PopBack v) i = operator_index v i ∧
       At (PopBack v) i ≠ ThrowsOutOfRange ∧
       (Z.of_nat (length (items_ v)) <= i → At (PopBack v) i = Undefined).
Proof.
  unfold GetSize, IsEmpty, At, operator_index, PopBack. simpl.
  intros ->. change (size_t (0 - 1)) with SIZE_MAX.
  split; [done|]. split; [done|]. intros i Hi.
  destruct (Z.leb_spec SIZE_MAX i); [lia|].
  split; [done|]. split.
  - unfold load. destruct (0 <=? i); [|done].
    by destruct (items_ v !! Z.to_nat i).
  - intros Hout. apply load_out. lia.
Qed.
(** X8. [Insert(pos, value)] followed by [Erase] at the returned iterator
    gives back the size and the elements the vector had. *)
Theorem X8_Insert_Erase_roundtrip v (pos : Z) value :
  wf v → begin v <= pos <= end_ v →
  (GetSize v = GetCapacity v → GetCapacity v * 2 <= SIZE_MAX) →
  ∃ v1 it old v2 it2,
    Insert v pos value = Returns (v1, it) ∧
    Insert_move v pos value = Returns (v1, it, old) ∧
    Erase v1 it = Returns (v2, it2) ∧
    GetSize v2 = GetSize v ∧
    elements v2 = elements v ∧
    it2 = pos ∧
    wf v2.
Proof.
  unfold begin, end_, GetSize, GetCapacity. intros Hwf Hpos Hdouble.
  destruct (Insert_spec v pos value Hwf Hpos Hdouble)
    as (v1 & old & Hc & Hm & Hs1 & _ & He1 & _ & Hwf1).
  destruct (Erase_spec v1 pos Hwf1) as (v2 & He & Hs2 & _ & He2 & _ & _ & Hwf2);
    [lia|].
  pose proof (length_elements v Hwf) as Hlen.
  exists v1, pos, old, v2, pos.
  split; [done|]. split; [done|]. split; [done|]. split; [lia|].
  split; [|done].
  assert (length (take (Z.to_nat pos) (elements v)) = Z.to_nat pos) as Hlp.
  { rewrite length_take. lia. }
  rewrite He2, He1. rewrite take_app_length' by done.
  rewrite cons_middle, app_assoc.
  rewrite drop_app_length' by (rewrite length_app; simpl; lia).
  apply take_drop.
Qed.

(** X9. [Erase(pos)] followed by [Insert] of the erased value at the
    returned iterator gives back the elements, the size and the capacity:
    the insertion reuses the freed slot. *)
Theorem X9_Erase_Insert_roundtrip v (pos : Z) x :
  wf v → begin v <= pos < end_ v →
  elements v !! Z.to_nat pos = Some x →
  ∃ v1 it v2 it2 old,
    Erase v pos = Returns (v1, it) ∧
    Insert v1 it x = Returns (v2, it2) ∧
    Insert_move v1 it x = Returns (v2, it2, old) ∧
    GetSize v2 = GetSize v ∧
    GetCapacity v2 = GetCapacity v ∧
    elements v2 = elements v ∧
    wf v2.
Proof.
  unfold begin, end_, GetSize, GetCapacity. intros Hwf Hpos Hx.
  pose proof Hwf as (Hs0 & Hsc & Hcl & Hmax).
  destruct (Erase_spec v pos Hwf Hpos)
    as (v1 & He & Hs1 & Hc1 & He1 & _ & _ & Hwf1).
  destruct (Insert_spec v1 pos x Hwf1)
    as (v2 & old & Hi & Him & Hs2 & Hc2 & He2 & _ & Hwf2); [lia..|].
  pose proof (length_elements v Hwf) as Hlen.
  exists v1, pos, v2, pos, old.
  split; [done|]. split; [done|]. split; [done|]. split; [lia|].
  split; [|split; [|done]].
  - rewrite Hc2. destruct (Z.ltb_spec (size_ v1) (capacity_ v1)); lia.
  - assert (length (take (Z.to_nat pos) (elements v)) = Z.to_nat pos) as Hlp.
    { rewrite length_take. lia. }
    rewrite He2, He1. rewrite take_app_length' by done.
    rewrite drop_app_length' by done.
    by apply take_drop_middle.
Qed.

(** X10. The assertion of [Insert] and [Erase] stops every position
    outside [begin, end]; it lets [Erase(end())] through, which then hands
    [std::copy] the inverted range [end + 1, end). *)
Theorem X10_position_checks v :
  wf v →
  Erase v (end_ v) = Undefined ∧
  ∀ pos value,
    pos < begin v ∨ end_ v < pos →
    Erase v pos = AssertionFailed ∧
    Insert v pos value = AssertionFailed ∧
    Insert_move v pos value = AssertionFailed.
Proof.
  intros (Hs0 & Hsc & Hcl & Hmax). unfold begin, end_. split.
  - unfold Erase, begin, end_, assert.
    destruct (Z.leb_spec 0 (size_ v)); [|lia].
    rewrite Z.leb_refl. simpl.
    rewrite Z.sub_0_r, (size_t_id (size_ v)) by lia.
    unfold std_copy_within.
    destruct (Z.ltb_spec (size_ v) (size_ v + 1)); [done|lia].
  - intros pos value Hpos.
    unfold Erase, Insert, Insert_move, begin, end_, assert.
    destruct (Z.leb_spec 0 pos); destruct (Z.leb_spec pos (size_ v));
      try lia; done.
Qed.

Lemma PushBack_move_all_room (xs : list T) : ∀ v,
  wf v → size_ v + Z.of_nat (length xs) <= capacity_ v →
  ∃ w, PushBack_move_all v xs = Returns w ∧
       capacity_ w = capacity_ v ∧
       size_ w = size_ v + Z.of_nat (length xs) ∧
       elements w = elements v ++ xs ∧
       wf w.
Proof.
  induction xs as [|x xs IH]; intros v Hwf Hroom; simpl.
  - exists v. rewrite app_nil_r. repeat (split; [done || lia|]). done.
  - simpl in Hroom.
    destruct (PushBack_step v x)
      as (v' & old & -> & Hs & Hcap & _ & He & Hwf'); [done|lia|].
    rewrite !bind_Returns.
    destruct (Z.ltb_spec (size_ v) (capacity_ v)); [|lia].
    destruct (IH v') as (w & -> & Hcw & Hsw & Hew & Hwfw); [done|lia|].
    exists w. split; [done|]. split; [lia|].
    split; [lia|]. split; [|done]. by rewrite Hew, He, <- app_assoc.
Qed.

(** X11. After [Reserve(n)], appending elements (moving [PushBack]) up to
    the reserved capacity never changes the capacity again: the capacity
    stays [max(n, capacity)] and the block keeps its length. *)
Theorem X11_Reserve_then_PushBack v (n : Z) (xs : list T) :
  wf v → 0 <= n <= SIZE_MAX →
  GetSize v + Z.of_nat (length xs) <= Z.max n (GetCapacity v) →
  ∃ r w, Reserve v n = Returns r ∧
         PushBack_move_all r xs = Returns w ∧
         GetCapacity r = Z.max n (GetCapacity v) ∧
         GetCapacity w = GetCapacity r ∧
         length (items_ w) = length (items_ r) ∧
         GetSize w = GetSize v + Z.of_nat (length xs) ∧
         elements w = elements v ++ xs.
Proof.
  unfold GetSize, GetCapacity. intros Hwf Hn Hroom.
  assert (∃ r, Reserve v n = Returns r ∧ wf r ∧
               capacity_ r = Z.max n (capacity_ v) ∧
               size_ r = size_ v ∧ elements r = elements v)
    as (r & Hr & Hwfr & Hcr & Hsr & Her).
  { destruct (Z.le_gt_cases n (capacity_ v)).
    - exists v. rewrite Reserve_noop by done.
      repeat (split; [done || lia|]). done.
    - rewrite Reserve_grow by (done || lia). eexists. split; [done|].
      split; [apply wf_grown; (done || lia)|]. simpl.
      split; [lia|]. split; [done|]. by apply elements_app_tail. }
  destruct (PushBack_move_all_room xs r Hwfr)
    as (w & Hm & Hcw & Hsw & Hew & Hwfw); [lia|].
  exists r, w. repeat (split; [done || lia|]).
  split; [|split; [lia|by rewrite Hew, Her]].
  destruct Hwfr as (_ & _ & Hlr & _), Hwfw as (_ & _ & Hlw & _). lia.
Qed.

(** X12. [Resize] to a larger size and back to the old size gives back
    the elements; the capacity reached in between is kept. *)
Theorem X12_Resize_grow_shrink v (n : Z) :
  wf v → GetSize v <= n <= SIZE_MAX →
  (GetCapacity v < n → GetCapacity v * 2 <= SIZE_MAX) →
  ∃ g s, Resize v n = Returns g ∧
         Resize g (GetSize v) = Returns s ∧
         GetSize s = GetSize v ∧
         elements s = elements v ∧
         GetCapacity s = GetCapacity g ∧
         GetCapacity v <= GetCapacity g.
Proof.
  unfold GetSize, GetCapacity. intros Hwf Hn Hdouble.
  pose proof Hwf as (Hs0 & Hsc & Hcl & Hmax).
  pose proof (length_elements v Hwf) as Hlen.
  destruct (Z.le_gt_cases n (size_ v)) as [Hle|Hgt].
  - rewrite Resize_shrink by done. eexists. eexists.
    split; [done|]. rewrite Resize_shrink by (simpl; lia).
    split; [done|]. simpl. split; [done|]. split; [|split; [done|lia]].
    unfold elements. simpl. done.
  - destruct (Z.le_gt_cases n (capacity_ v)) as [Hin|Hout].
    + rewrite Resize_within by (done || lia). eexists. eexists.
      split; [done|]. rewrite Resize_shrink by (simpl; lia).
      split; [done|]. simpl. split; [done|]. split; [|split; [done|lia]].
      unfold elements at 1. simpl. apply take_app_length'. lia.
    + rewrite Resize_grow by (done || lia || auto). eexists. eexists.
      split; [done|]. rewrite Resize_shrink by (simpl; lia).
      split; [done|]. simpl. split; [done|]. split; [|split; [done|lia]].
      unfold elements at 1. simpl. apply take_app_length'. lia.
Qed.

(** X13. [Resize] to a smaller size and back does not bring the dropped
    elements back: the regained slots hold the default value. *)
Theorem X13_Resize_shrink_grow v (m : Z) :
  wf v → 0 <= m <= GetSize v →
  ∃ s g, Resize v m = Returns s ∧
         Resize s (GetSize v) = Returns g ∧
         GetSize g = GetSize v ∧
         GetCapacity g = GetCapacity v ∧
         elements g = take (Z.to_nat m) (elements v)
                      ++ replicate (Z.to_nat (GetSize v - m)) default_value.
Proof.
  unfold GetSize, GetCapacity. intros Hwf Hm.
  pose proof Hwf as (Hs0 & Hsc & Hcl & Hmax).
  rewrite Resize_shrink by lia.
  set (s := {| items_ := items_ v; size_ := m; capacity_ := capacity_ v |}).
  assert (wf s) as Hwfs by (unfold wf, s; simpl; lia).
  assert (elements s = take (Z.to_nat m) (elements v)) as Hes.
  { unfold elements, s. simpl. rewrite take_take. f_equal. lia. }
  exists s. destruct (decide (m = size_ v)) as [Heq|Hne].
  - rewrite (Resize_shrink s (size_ v)) by (simpl; lia).
    eexists. split; [done|]. split; [done|]. simpl.
    split; [done|]. split; [done|].
    rewrite <- Hes, Heq, Z.sub_diag. simpl. rewrite app_nil_r.
    unfold elements, s. simpl. by rewrite Heq.
  - rewrite (Resize_within s (size_ v) Hwfs) by (simpl; lia).
    eexists. split; [done|]. split; [done|]. simpl.
    split; [done|]. split; [done|].
    unfold elements at 1. simpl. rewrite <- Hes, app_assoc.
    apply take_app_length'.
    rewrite length_app, length_replicate.
    pose proof (length_elements s Hwfs). simpl in *. lia.
Qed.
(** X14. [==] looks at the live elements only: vectors of different size
    are unequal, vectors with the same elements are equal whatever their
    capacities and spare slots, and a copy is equal to its source (for an
    element type whose [==] is reflexive). *)
Theorem X14_equality_ignores_capacity a b :
  wf a → wf b → (∀ x : T, op_eq x x = true) →
  (GetSize a ≠ GetSize b →
   operator_eq a b = Returns false ∧ operator_ne a b = Returns true) ∧
  (elements a = elements b →
   operator_eq a b = Returns true ∧ operator_ne a b = Returns false) ∧
  (∃ c, Copy a = Returns c ∧
        operator_eq c a = Returns true ∧ operator_eq a c = Returns true).
Proof.
  unfold GetSize. intros Hwfa Hwfb Hrefl.
  pose proof Hwfa as (Ha0 & Hasc & Hacl & _).
  pose proof Hwfb as (Hb0 & Hbsc & Hbcl & _).
  split; [|split].
  - intros Hne. unfold operator_ne, operator_eq, GetSize.
    destruct (Z.eqb_spec (size_ a) (size_ b)); [lia|done].
  - intros Hel.
    destruct (operator_eq_spec a b) as (e & He & Hiff); [lia..|].
    assert (e = true) as ->.
    { apply Hiff. split.
      - rewrite <- (length_elements a), <- (length_elements b) by done.
        by rewrite Hel.
      - rewrite Hel. by apply elementwise_equal_refl. }
    unfold operator_ne. by rewrite He.
  - rewrite Copy_spec by done.
    set (c := {| items_ := elements a; size_ := size_ a;
                 capacity_ := capacity_ a |}).
    pose proof (length_elements a Hwfa) as Hlen.
    assert (elements c = elements a) as Hec.
    { unfold elements at 1. simpl. unfold elements.
      by rewrite take_take, Nat.min_id. }
    exists c. split; [done|]. split.
    + destruct (operator_eq_spec c a) as (e & He & Hiff);
        [simpl; lia|lia|].
      rewrite He. f_equal. apply Hiff. split; [done|].
      rewrite Hec. by apply elementwise_equal_refl.
    + destruct (operator_eq_spec a c) as (e & He & Hiff);
        [lia|simpl; lia|].
      rewrite He. f_equal. apply Hiff. split; [done|].
      rewrite Hec. by apply elementwise_equal_refl.
Qed.

(** X15. For an element type whose [==] is the equivalence of its [<],
    exactly one of [a < b], [a == b] and [a > b] holds. *)
Theorem X15_trichotomy a b :
  wf a → wf b → consistent_order (T:=T) →
  ∃ l e g,
    operator_lt a b = Returns l ∧
    operator_eq a b = Returns e ∧
    operator_gt a b = Returns g ∧
    ((l = true ∧ e = false ∧ g = false) ∨
     (l = false ∧ e = true ∧ g = false) ∨
     (l = false ∧ e = false ∧ g = true)).
Proof.
  intros (Ha0 & Hasc & Hacl & _) (Hb0 & Hbsc & Hbcl & _) Hord.
  destruct (operator_eq_spec a b) as (e & He & Heq); [lia..|].
  destruct (operator_lt_spec a b) as (l & Hl & Hlt); [lia..|].
  destruct (derived_operators a b e l He Hl) as (_ & Hgt & _).
  exists l, e, (negb l && negb e).
  split; [done|]. split; [done|]. split; [done|].
  destruct l, e; simpl; auto.
  exfalso. eapply lex_precedes_not_equal; [done|by apply Hlt|by apply Heq].
Qed.

(** X16. For such an element type whose [<] is also asymmetric,
    [a > b], written in the source as [!(a < b) && a != b], is [b < a],
    and [a <= b] is [b >= a]. *)
Theorem X16_gt_is_flipped_lt a b :
  wf a → wf b → consistent_order (T:=T) →
  (∀ x y : T, op_lt x y = true → op_lt y x = false) →
  ∃ g le,
    operator_gt a b = Returns g ∧ operator_lt b a = Returns g ∧
    operator_le a b = Returns le ∧ operator_ge b a = Returns le.
Proof.
  intros Hwfa Hwfb Hord Hasym.
  pose proof Hwfa as (Ha0 & Hasc & Hacl & _).
  pose proof Hwfb as (Hb0 & Hbsc & Hbcl & _).
  destruct (operator_eq_spec a b) as (e & He & Heq); [lia..|].
  destruct (operator_lt_spec a b) as (l & Hl & Hlt); [lia..|].
  destruct (operator_lt_spec b a) as (l' & Hl' & Hlt'); [lia..|].
  specialize (Hlt Hord). specialize (Hlt' Hord).
  destruct (derived_operators a b e l He Hl) as (_ & Hgt & Hle & _).
  pose proof (lex_precedes_flip (elements a) (elements b) Hord Hasym)
    as Hflip.
  assert (elementwise_equal (elements a) (elements b) → e = true) as Hsz.
  { intros Hall. apply Heq. split; [|done].
    rewrite <- (length_elements a), <- (length_elements b) by done.
    f_equal. by eapply Forall2_length. }
  assert (negb l && negb e = l') as Hg.
  { destruct l' eqn:El'.
    - destruct (proj1 Hflip (proj1 Hlt' eq_refl)) as [Hn1 Hn2].
      destruct l; [destruct Hn1; by apply Hlt|].
      destruct e; [destruct Hn2; by apply Heq|]. done.
    - destruct l; [done|]. destruct e; [done|]. simpl.
      symmetry. apply Hlt', Hflip. split.
      + intros Hlex. apply Hlt in Hlex. congruence.
      + intros Hall. apply Hsz in Hall. congruence. }
  exists l', (negb l').
  rewrite <- Hg at 1. split; [done|]. split; [done|]. split.
  - rewrite Hle, <- Hg. by destruct l, e.
  - unfold operator_ge. by rewrite Hl'.
Qed.

Lemma PushBack_move_all_doubling (xs : list T) : ∀ v,
  wf v →
  (size_ v = 0 ∧ capacity_ v = 0) ∨
  (∃ k, 0 <= k ∧ capacity_ v = 2 ^ k ∧ capacity_ v < 2 * size_ v) →
  size_ v + Z.of_nat (length xs) <= 2 ^ 63 →
  ∃ w, PushBack_move_all v xs = Returns w ∧
       wf w ∧
       size_ w = size_ v + Z.of_nat (length xs) ∧
       ((size_ w = 0 ∧ capacity_ w = 0) ∨
        (∃ k, 0 <= k ∧ capacity_ w = 2 ^ k ∧ capacity_ w < 2 * size_ w)).
Proof.
  induction xs as [|x xs IH]; intros v Hwf Hinv Hn; simpl.
  - exists v. repeat (split; [done || lia|]). done.
  - simpl in Hn. pose proof Hwf as (Hs0 & Hsc & Hcl & Hmax).
    destruct (PushBack_step v x)
      as (v' & old & -> & Hs & Hcap & _ & _ & Hwf');
      [done|unfold SIZE_MAX; lia|].
    rewrite !bind_Returns.
    destruct (IH v') as (w & -> & Hwfw & Hsw & Hinvw); [done| |lia|].
    + right. destruct (Z.ltb_spec (size_ v) (capacity_ v)) as [Hlt|Hge].
      * destruct Hinv as [[? ?]|(k & Hk & Hck & Hlt2)]; [lia|].
        exists k. split; [done|]. split; [lia|lia].
      * destruct (Z.eqb_spec (capacity_ v) 0) as [H0|Hn0].
        -- exists 0. split; [done|]. split; [by rewrite Hcap|lia].
        -- destruct Hinv as [[? ?]|(k & Hk & Hck & Hlt2)]; [lia|].
           exists (Z.succ k). split; [lia|].
           rewrite Z.pow_succ_r by done. split; [lia|lia].
    + exists w. repeat (split; [done || lia|]). done.
Qed.

(** X17. After [n >= 1] moving appends to an empty vector the capacity is
    a power of two with [n <= capacity < 2 n]. *)
Theorem X17_PushBack_capacity_power_of_two (xs : list T) :
  xs ≠ [] → Z.of_nat (length xs) <= 2 ^ 63 →
  ∃ w k, PushBack_move_all Default xs = Returns w ∧
         0 <= k ∧
         GetCapacity w = 2 ^ k ∧
         Z.of_nat (length xs) <= GetCapacity w < 2 * Z.of_nat (length xs).
Proof.
  unfold GetCapacity. intros Hne Hn.
  destruct (PushBack_move_all_doubling xs Default)
    as (w & Hm & Hwfw & Hsw & Hinv).
  { exact (proj1 constructors_wf). }
  { left. done. }
  { simpl. lia. }
  simpl in Hsw. destruct Hwfw as (_ & Hsc & _).
  destruct Hinv as [[Hs0 _]|(k & Hk & Hck & Hlt)].
  { destruct xs; [done|simpl in *; lia]. }
  exists w, k. repeat (split; [done || lia|]). lia.
Qed.

(** X18. The copy of a full vector satisfies the invariant.  The copy of
    a vector with spare capacity has a block of [size] slots under the
    larger capacity field, so the next append to it (moving [PushBack])
    accesses a slot outside the block. *)
Theorem X18_Copy_spare_capacity other x :
  wf other →
  ∃ c, Copy other = Returns c ∧
       Z.of_nat (length (items_ c)) = GetSize other ∧
       (GetSize other = GetCapacity other → wf c) ∧
       (GetSize other < GetCapacity other →
        ¬ wf c ∧
        PushBack_move c x = Undefined).
Proof.
  unfold GetSize, GetCapacity. intros Hwf.
  pose proof Hwf as (Hs0 & Hsc & Hcl & Hmax).
  pose proof (length_elements other Hwf) as Hlen.
  rewrite Copy_spec by done. eexists. split; [done|]. simpl.
  split; [done|]. split.
  - intros Hfull. unfold wf. simpl. lia.
  - intros Hspare. split; [unfold wf; simpl; lia|].
    unfold PushBack_move, swap_slot. simpl.
    destruct (Z.ltb_spec (size_ other) (capacity_ other)); [|lia].
    by rewrite load_out by lia.
Qed.

(** X19. [Insert] at [end()], copying or moving, appends like the moving
    [PushBack]: same size, capacity and elements, and the returned
    iterator is the old [end()]. *)
Theorem X19_Insert_at_end_appends v x :
  wf v →
  (GetSize v = GetCapacity v → GetCapacity v * 2 <= SIZE_MAX) →
  ∃ v1 old1 v2 it old2,
    PushBack_move v x = Returns (v1, old1) ∧
    Insert v (end_ v) x = Returns (v2, it) ∧
    Insert_move v (end_ v) x = Returns (v2, it, old2) ∧
    it = end_ v ∧
    GetSize v2 = GetSize v1 ∧
    GetCapacity v2 = GetCapacity v1 ∧
    elements v2 = elements v1 ∧
    elements v2 = elements v ++ [x].
Proof.
  unfold end_, GetSize, GetCapacity. intros Hwf Hdouble.
  pose proof Hwf as (Hs0 & Hsc & Hcl & Hmax).
  pose proof (length_elements v Hwf) as Hlen.
  destruct (PushBack_step v x Hwf Hdouble)
    as (v1 & old1 & Hp & Hs1 & Hc1 & _ & He1 & _).
  destruct (Insert_spec v (size_ v) x Hwf)
    as (v2 & old2 & Hi & Him & Hs2 & Hc2 & He2 & _); [lia|done|].
  rewrite take_ge, drop_ge in He2 by lia.
  exists v1, old1, v2, (size_ v), old2.
  split; [done|]. split; [done|]. split; [done|]. split; [done|].
  split; [lia|].
  split; [by rewrite Hc1, Hc2|]. by rewrite He1, He2.
Qed.

(** X20. [Erase] of the last element does what [PopBack] does: same size,
    capacity and elements, and the returned iterator is the new [end()]. *)
Theorem X20_Erase_last_is_PopBack v :
  wf v → 0 < GetSize v →
  ∃ v' it,
    Erase v (end_ v - 1) = Returns (v', it) ∧
    it = end_ v' ∧
    GetSize v' = GetSize (PopBack v) ∧
    GetCapacity v' = GetCapacity (PopBack v) ∧
    elements v' = elements (PopBack v).
Proof.
  unfold end_, GetSize, GetCapacity. intros Hwf Hpos.
  pose proof Hwf as (Hs0 & Hsc & Hcl & Hmax).
  pose proof (length_elements v Hwf) as Hlen.
  destruct (Erase_spec v (size_ v - 1) Hwf)
    as (v' & He & Hs & Hc & Hel & _ & _ & _); [lia|].
  exists v', (size_ v - 1). split; [done|].
  unfold PopBack. simpl. rewrite size_t_id by lia.
  split; [lia|]. split; [done|]. split; [done|].
  rewrite Hel, drop_ge, app_nil_r by lia.
  unfold elements. simpl. rewrite take_take. f_equal. lia.
Qed.
End Extras.

Section ExtrasReserved.
Context {T : Type} `{!Element T}.

(** X21. A vector built from [Reserve(hint)] with [hint > 0] has the
    capacity field [hint] and no block.  Until it is grown past [hint] it
    cannot take an element: the moving [PushBack], [Insert] and
    [Resize(n)] for [0 < n <= hint] access the missing block and
    [Reserve(n)] for
    [n <= hint] does nothing; [Reserve(m)] for [m > hint] allocates and
    restores the invariant. *)
Theorem X21_reserving_constructor (hint : Z) (x : T) :
  0 < hint →
  let v := SimpleVector.FromReserve (Reserve hint) in
  SimpleVector.GetSize v = 0 ∧
  SimpleVector.GetCapacity v = hint ∧
  SimpleVector.PushBack_move v x = Undefined ∧
  SimpleVector.Insert v (SimpleVector.begin v) x = Undefined ∧
  SimpleVector.Insert_move v (SimpleVector.begin v) x = Undefined ∧
  (∀ n, 0 < n <= hint →
        SimpleVector.Resize v n = Undefined ∧
        SimpleVector.Reserve v n = Returns v) ∧
  (∀ m, hint < m <= SIZE_MAX →
        ∃ r, SimpleVector.Reserve v m = Returns r ∧
             SimpleVector.wf r ∧
             SimpleVector.GetCapacity r = m ∧
             SimpleVector.GetSize r = 0).
Proof.
  intros Hhint v. unfold v, Reserve.
  split; [done|]. split; [done|].
  split; [|split; [|split; [|split]]].
  - unfold SimpleVector.PushBack_move. simpl.
    destruct (Z.ltb_spec 0 hint); [done|lia].
  - unfold SimpleVector.Insert, SimpleVector.grow_if_full. simpl.
    destruct (Z.leb_spec hint 0); [lia|done].
  - unfold SimpleVector.Insert_move, SimpleVector.grow_if_full. simpl.
    destruct (Z.leb_spec hint 0); [lia|done].
  - intros n Hn. split.
    + unfold SimpleVector.Resize. simpl.
      destruct (Z.leb_spec n 0); [lia|].
      destruct (Z.leb_spec n hint); [|lia].
      unfold std_generate. destruct (Z.ltb_spec n 0); [lia|].
      destruct (Z.to_nat (n - 0)) eqn:Hk; [lia|done].
    + apply Reserve_noop. simpl. lia.
  - intros m Hm. unfold SimpleVector.Reserve. simpl.
    destruct (Z.ltb_spec hint m); [|lia].
    eexists. split; [done|]. split; [|done].
    unfold SimpleVector.wf, ArrayPtr_new. simpl.
    rewrite length_replicate. lia.
Qed.
End ExtrasReserved.

(** * The further properties at concrete vectors *)

Lemma Z_op_eq_refl : ∀ x : Z, op_eq x x = true.
Proof. intros x. simpl. apply Z.eqb_refl. Qed.

Lemma Z_op_lt_asym : ∀ x y : Z, op_lt x y = true → op_lt y x = false.
Proof. intros x y. simpl. rewrite Z.ltb_lt, Z.ltb_ge. lia. Qed.

(** X1 at size 3 and value 7 *)
Lemma X1_sized_constructors_witness :
  ∃ v d, SimpleVector.Filled 3 7 = Returns v ∧
         SimpleVector.Sized 3 = Returns d ∧
         SimpleVector.elements v = [7; 7; 7] ∧
         SimpleVector.elements d = [0; 0; 0].
Proof.
  destruct (X1_sized_constructors (T:=Z) 3 7)
    as (v & d & Hv & Hd & _ & _ & Hev & _ & _ & _ & Hed & _); [bounds_now|].
  exists v, d. split; [exact Hv|]. split; [exact Hd|].
  split; [exact Hev|exact Hed].
Defined.

(** X2 on the list {4, 5, 6} *)
Lemma X2_FromList_elements_witness :
  ∃ v, SimpleVector.FromList [4; 5; 6] = Returns v ∧
       SimpleVector.elements v = [4; 5; 6] ∧
       SimpleVector.At v 1 = Returns 5 ∧
       SimpleVector.At v 3 = ThrowsOutOfRange.
Proof.
  destruct (X2_FromList_elements [4; 5; 6])
    as (v & Hv & _ & _ & He & _ & Hat & Hthrow); [bounds_now|].
  exists v. split; [exact Hv|]. split; [exact He|].
  split; [exact (Hat 1%nat 5 eq_refl)|exact Hthrow].
Defined.

(** X3: assigning {1, 2, 3} (capacity 4) to {9} *)
Lemma X3_assignment_copies_witness :
  ∃ c, SimpleVector.operator_assign (vec [9] 1 1) (vec [1; 2; 3; 0] 3 4)
       = Returns c ∧
       SimpleVector.operator_assign_move (vec [9] 1 1) (vec [1; 2; 3; 0] 3 4)
       = Returns (c, vec [1; 2; 3; 0] 3 4) ∧
       SimpleVector.elements c = [1; 2; 3] ∧
       SimpleVector.items_ c = [1; 2; 3] ∧
       SimpleVector.GetCapacity c = 4.
Proof.
  destruct (X3_assignment_copies (vec [9] 1 1) (vec [1; 2; 3; 0] 3 4))
    as (c & Ha & Hm & _ & He & Hi & Hc); [wf_now|].
  exists c. split; [exact Ha|]. split; [exact Hm|].
  split; [exact He|]. split; [exact Hi|exact Hc].
Defined.

(** X4: [Clear] then [Resize(2)] on {1, 2, 3} with capacity 4 *)
Lemma X4_Clear_keeps_capacity_witness :
  ∃ c r, SimpleVector.Clear (vec [1; 2; 3; 0] 3 4) = Returns c ∧
         SimpleVector.GetSize c = 0 ∧
         SimpleVector.GetCapacity c = 4 ∧
         SimpleVector.Resize c 2 = Returns r ∧
         SimpleVector.elements r = [0; 0].
Proof.
  destruct (X4_Clear_keeps_capacity (vec [1; 2; 3; 0] 3 4) 2)
    as (c & r & Hc & Hs & _ & Hcap & _ & _ & Hr & _ & He);
    [wf_now|bounds_now|].
  exists c, r. split; [exact Hc|]. split; [exact Hs|].
  split; [exact Hcap|]. split; [exact Hr|exact He].
Defined.

(** X5: [PopBack] on {1, 2, 3} *)
Lemma X5_PopBack_drops_last_witness :
  SimpleVector.GetSize (SimpleVector.PopBack (vec [1; 2; 3] 3 3)) = 2 ∧
  ∃ x, [1; 2; 3]
       = SimpleVector.elements (SimpleVector.PopBack (vec [1; 2; 3] 3 3))
         ++ [x].
Proof.
  destruct (X5_PopBack_drops_last (vec [1; 2; 3] 3 3))
    as (Hs & _ & Hx & _); [wf_now|bounds_now|].
  split; [exact Hs|exact Hx].
Defined.

(** X6: [PushBack(4)] then [PopBack] on the full vector {1, 2, 3} *)
Lemma X6_PushBack_PopBack_witness :
  ∃ v' old,
    SimpleVector.PushBack_move (vec [1; 2; 3] 3 3) 4 = Returns (v', old) ∧
    SimpleVector.GetSize (SimpleVector.PopBack v') = 3 ∧
    SimpleVector.elements (SimpleVector.PopBack v') = [1; 2; 3].
Proof.
  destruct (X6_PushBack_PopBack (vec [1; 2; 3] 3 3) 4)
    as (v' & old & Hm & Hs & He & _); [wf_now|bounds_now|].
  exists v', old. split; [exact Hm|].
  split; [exact Hs|exact He].
Defined.

(** X7: [PopBack] on the empty vector *)
Lemma X7_PopBack_empty_wraps_witness :
  SimpleVector.GetSize (SimpleVector.PopBack (vec [] 0 0)) = SIZE_MAX ∧
  SimpleVector.At (SimpleVector.PopBack (vec [] 0 0)) 5 = Undefined.
Proof.
  destruct (X7_PopBack_empty_wraps (vec [] 0 0)) as (Hs & _ & Hat);
    [reflexivity|].
  split; [exact Hs|].
  refine (proj2 (proj2 (Hat 5 _)) _); bounds_now.
Defined.

(** X8: [Insert(begin() + 1, 2)] then [Erase] on the full vector
    {1, 3, 4} *)
Lemma X8_Insert_Erase_roundtrip_witness :
  ∃ v1 it old v2 it2,
    SimpleVector.Insert (vec [1; 3; 4] 3 3) 1 2 = Returns (v1, it) ∧
    SimpleVector.Insert_move (vec [1; 3; 4] 3 3) 1 2
    = Returns (v1, it, old) ∧
    SimpleVector.Erase v1 it = Returns (v2, it2) ∧
    SimpleVector.GetSize v2 = 3 ∧
    SimpleVector.elements v2 = [1; 3; 4] ∧
    it2 = 1.
Proof.
  destruct (X8_Insert_Erase_roundtrip (vec [1; 3; 4] 3 3) 1 2)
    as (v1 & it & old & v2 & it2 & Hi & Hm & He & Hs & Hel & Hit & _);
    [wf_now|bounds_now|bounds_now|].
  exists v1, it, old, v2, it2. split; [exact Hi|]. split; [exact Hm|].
  split; [exact He|]. split; [exact Hs|]. split; [exact Hel|exact Hit].
Defined.

(** X9: [Erase(begin() + 1)] then [Insert] of the erased 2 on {1, 2, 3} *)
Lemma X9_Erase_Insert_roundtrip_witness :
  ∃ v1 it v2 it2 old,
    SimpleVector.Erase (vec [1; 2; 3] 3 3) 1 = Returns (v1, it) ∧
    SimpleVector.Insert v1 it 2 = Returns (v2, it2) ∧
    SimpleVector.Insert_move v1 it 2 = Returns (v2, it2, old) ∧
    SimpleVector.GetCapacity v2 = 3 ∧
    SimpleVector.elements v2 = [1; 2; 3].
Proof.
  destruct (X9_Erase_Insert_roundtrip (vec [1; 2; 3] 3 3) 1 2)
    as (v1 & it & v2 & it2 & old & He & Hi & Hm & _ & Hc & Hel & _);
    [wf_now|bounds_now|reflexivity|].
  exists v1, it, v2, it2, old. split; [exact He|]. split; [exact Hi|].
  split; [exact Hm|]. split; [exact Hc|exact Hel].
Defined.

(** X10: positions [end()], [end() + 1] and [begin() - 1] on {1, 2, 3} *)
Lemma X10_position_checks_witness :
  SimpleVector.Erase (vec [1; 2; 3] 3 3) 3 = Undefined ∧
  SimpleVector.Erase (vec [1; 2; 3] 3 3) 4 = AssertionFailed ∧
  SimpleVector.Insert (vec [1; 2; 3] 3 3) (-1) 0 = AssertionFailed.
Proof.
  destruct (X10_position_checks (vec [1; 2; 3] 3 3)) as (He & Hout);
    [wf_now|].
  split; [exact He|]. split.
  - refine (proj1 (Hout 4 0 _)). bounds_now.
  - refine (proj1 (proj2 (Hout (-1) 0 _))). bounds_now.
Defined.

(** X11: [Reserve(10)] then two appends on {1, 2, 3} *)
Lemma X11_Reserve_then_PushBack_witness :
  ∃ r w, SimpleVector.Reserve (vec [1; 2; 3] 3 3) 10 = Returns r ∧
         PushBack_move_all r [4; 5] = Returns w ∧
         SimpleVector.GetCapacity w = 10 ∧
         SimpleVector.elements w = [1; 2; 3; 4; 5].
Proof.
  destruct (X11_Reserve_then_PushBack (vec [1; 2; 3] 3 3) 10 [4; 5])
    as (r & w & Hr & Hw & Hcr & Hcw & _ & _ & He);
    [wf_now|bounds_now|bounds_now|].
  exists r, w. split; [exact Hr|]. split; [exact Hw|].
  split; [rewrite Hcw; exact Hcr|exact He].
Defined.

(** X12: [Resize(5)] then [Resize(3)] on the full vector {1, 2, 3} *)
Lemma X12_Resize_grow_shrink_witness :
  ∃ g s, SimpleVector.Resize (vec [1; 2; 3] 3 3) 5 = Returns g ∧
         SimpleVector.Resize g 3 = Returns s ∧
         SimpleVector.elements s = [1; 2; 3] ∧
         SimpleVector.GetCapacity s = SimpleVector.GetCapacity g.
Proof.
  destruct (X12_Resize_grow_shrink (vec [1; 2; 3] 3 3) 5)
    as (g & s & Hg & Hs & _ & He & Hc & _);
    [wf_now|bounds_now|bounds_now|].
  exists g, s. split; [exact Hg|]. split; [exact Hs|].
  split; [exact He|exact Hc].
Defined.

(** X13: [Resize(1)] then [Resize(3)] on {1, 2, 3} *)
Lemma X13_Resize_shrink_grow_witness :
  ∃ s g, SimpleVector.Resize (vec [1; 2; 3] 3 3) 1 = Returns s ∧
         SimpleVector.Resize s 3 = Returns g ∧
         SimpleVector.elements g = [1; 0; 0].
Proof.
  destruct (X13_Resize_shrink_grow (vec [1; 2; 3] 3 3) 1)
    as (s & g & Hs & Hg & _ & _ & He); [wf_now|bounds_now|].
  exists s, g. split; [exact Hs|]. split; [exact Hg|exact He].
Defined.

(** X14: {1, 2, 3} with capacity 3 against {1, 2, 3} with capacity 4 *)
Lemma X14_equality_ignores_capacity_witness :
  operator_eq (vec [1; 2; 3] 3 3) (vec [1; 2; 3; 9] 3 4) = Returns true ∧
  ∃ c, SimpleVector.Copy (vec [1; 2; 3] 3 3) = Returns c ∧
       operator_eq c (vec [1; 2; 3] 3 3) = Returns true.
Proof.
  destruct (X14_equality_ignores_capacity
              (vec [1; 2; 3] 3 3) (vec [1; 2; 3; 9] 3 4))
    as (_ & Heq & c & Hc & Hcc & _); [wf_now|wf_now|exact Z_op_eq_refl|].
  split; [exact (proj1 (Heq eq_refl))|].
  exists c. split; [exact Hc|exact Hcc].
Defined.

(** X15: {1, 2, 3} against {1, 2, 4} *)
Lemma X15_trichotomy_witness :
  ∃ l e g,
    operator_lt (vec [1; 2; 3] 3 3) (vec [1; 2; 4] 3 3) = Returns l ∧
    operator_eq (vec [1; 2; 3] 3 3) (vec [1; 2; 4] 3 3) = Returns e ∧
    operator_gt (vec [1; 2; 3] 3 3) (vec [1; 2; 4] 3 3) = Returns g ∧
    ((l = true ∧ e = false ∧ g = false) ∨
     (l = false ∧ e = true ∧ g = false) ∨
     (l = false ∧ e = false ∧ g = true)).
Proof.
  apply (X15_trichotomy (vec [1; 2; 3] 3 3) (vec [1; 2; 4] 3 3));
    [wf_now|wf_now|exact Z_consistent_order].
Defined.

(** X16: {1, 2, 4} against {1, 2, 3} *)
Lemma X16_gt_is_flipped_lt_witness :
  ∃ g le,
    operator_gt (vec [1; 2; 4] 3 3) (vec [1; 2; 3] 3 3) = Returns g ∧
    operator_lt (vec [1; 2; 3] 3 3) (vec [1; 2; 4] 3 3) = Returns g ∧
    operator_le (vec [1; 2; 4] 3 3) (vec [1; 2; 3] 3 3) = Returns le ∧
    operator_ge (vec [1; 2; 3] 3 3) (vec [1; 2; 4] 3 3) = Returns le.
Proof.
  apply (X16_gt_is_flipped_lt (vec [1; 2; 4] 3 3) (vec [1; 2; 3] 3 3));
    [wf_now|wf_now|exact Z_consistent_order|exact Z_op_lt_asym].
Defined.

(** X17: three appends to an empty vector give capacity 4 *)
Lemma X17_PushBack_capacity_power_of_two_witness :
  ∃ w k, PushBack_move_all SimpleVector.Default [7; 8; 9] = Returns w ∧
         SimpleVector.GetCapacity w = 2 ^ k ∧
         3 <= SimpleVector.GetCapacity w < 6.
Proof.
  destruct (X17_PushBack_capacity_power_of_two [7; 8; 9])
    as (w & k & Hw & _ & Hk & Hb); [discriminate|bounds_now|].
  exists w, k. split; [exact Hw|]. split; [exact Hk|exact Hb].
Defined.

(** X18: the copy of {1, 2, 3} with capacity 4 *)
Lemma X18_Copy_spare_capacity_witness :
  ∃ c, SimpleVector.Copy (vec [1; 2; 3; 0] 3 4) = Returns c ∧
       ¬ SimpleVector.wf c ∧
       SimpleVector.PushBack_move c 5 = Undefined.
Proof.
  destruct (X18_Copy_spare_capacity (vec [1; 2; 3; 0] 3 4) 5)
    as (c & Hc & _ & _ & Hspare); [wf_now|].
  destruct Hspare as (Hnwf & Hp); [bounds_now|].
  exists c. split; [exact Hc|]. split; [exact Hnwf|exact Hp].
Defined.

(** X19: [Insert(end(), 4)] on the full vector {1, 2, 3} *)
Lemma X19_Insert_at_end_appends_witness :
  ∃ v1 old1 v2 it old2,
    SimpleVector.PushBack_move (vec [1; 2; 3] 3 3) 4 = Returns (v1, old1) ∧
    SimpleVector.Insert (vec [1; 2; 3] 3 3) 3 4 = Returns (v2, it) ∧
    SimpleVector.Insert_move (vec [1; 2; 3] 3 3) 3 4
    = Returns (v2, it, old2) ∧
    it = 3 ∧
    SimpleVector.elements v2 = SimpleVector.elements v1 ∧
    SimpleVector.elements v2 = [1; 2; 3; 4].
Proof.
  destruct (X19_Insert_at_end_appends (vec [1; 2; 3] 3 3) 4)
    as (v1 & old1 & v2 & it & old2 & Hp & Hi & Him & Hit & _ & _ & He & He2);
    [wf_now|bounds_now|].
  exists v1, old1, v2, it, old2. split; [exact Hp|]. split; [exact Hi|].
  split; [exact Him|]. split; [exact Hit|]. split; [exact He|exact He2].
Defined.

(** X20: [Erase(end() - 1)] on {1, 2, 3} *)
Lemma X20_Erase_last_is_PopBack_witness :
  ∃ v' it,
    SimpleVector.Erase (vec [1; 2; 3] 3 3) 2 = Returns (v', it) ∧
    it = SimpleVector.end_ v' ∧
    SimpleVector.elements v'
    = SimpleVector.elements (SimpleVector.PopBack (vec [1; 2; 3] 3 3)).
Proof.
  destruct (X20_Erase_last_is_PopBack (vec [1; 2; 3] 3 3))
    as (v' & it & He & Hit & _ & _ & Hel); [wf_now|bounds_now|].
  exists v', it. split; [exact He|]. split; [exact Hit|exact Hel].
Defined.

(** X21: the vector built from [Reserve(5)] *)
Lemma X21_reserving_constructor_witness :
  SimpleVector.PushBack_move (SimpleVector.FromReserve (Reserve 5)) 1
  = Undefined ∧
  SimpleVector.Resize (SimpleVector.FromReserve (T:=Z) (Reserve 5)) 3
  = Undefined ∧
  ∃ r, SimpleVector.Reserve (SimpleVector.FromReserve (T:=Z) (Reserve 5)) 6
       = Returns r ∧ SimpleVector.wf r.
Proof.
  destruct (X21_reserving_constructor 5 1)
    as (_ & _ & Hp & _ & _ & Hin & Hout); [lia|].
  split; [exact Hp|]. split.
  - refine (proj1 (Hin 3 _)). lia.
  - destruct (Hout 6) as (r & Hr & Hwf & _); [bounds_now|].
    exists r. split; [exact Hr|exact Hwf].
Defined.
